(** * traycer: the recursive radiance estimator of [main.cc]

    A shallow embedding of the path tracer's integrator [color], of the
    driver [writeImage] with the scene of [createWorld] and the bitmap
    writer [generateBitmapImage], and of the collaborators they call.
    Scalars are kept behind the interface [Scalar]; the instance the
    program runs on is IEEE-754 binary32 ([float]), given by the Standard
    Library's executable specification of floating-point arithmetic. *)

From Stdlib Require Import ZArith List Bool Lia.
From Stdlib Require Import Floats.SpecFloat.
From Stdlib Require Import Ascii.
From Stdlib Require String.
From Equations Require Import Equations.
Import ListNotations.

Set Implicit Arguments.
Local Open Scope Z_scope.

(** ** Scalars *)

(** The arithmetic the renderer performs on one [float]. *)
Class Scalar (F : Type) : Type := {
  f0 : F;                         (* the literal 0.0 *)
  fadd : F -> F -> F;
  fsub : F -> F -> F;
  fopp : F -> F;
  fmul : F -> F -> F;
  fdiv : F -> F -> F;
  fsqrt : F -> F;
  fltb : F -> F -> bool;          (* the comparison x < y *)
  of_int : Z -> F;                (* conversion of an int *)
  lit_0_001 : F;                  (* the literal 0.001 *)
  FLT_MAX : F                     (* <cfloat> *)
}.

(** A float that is not below zero, or no number at all: NaN, a zero, or a
    value with the sign bit clear. *)
Definition unsigned (x : spec_float) : bool :=
  match x with
  | S754_nan | S754_zero _ => true
  | S754_infinity s | S754_finite s _ _ => negb s
  end.

(** The place of a float that is a number in the order of the numbers:
    sign class, then exponent, then mantissa, both mirrored below zero. *)
Definition order_key (x : spec_float) : option (Z * Z * Z) :=
  match x with
  | S754_nan => None
  | S754_infinity true => Some (-2, 0, 0)
  | S754_infinity false => Some (2, 0, 0)
  | S754_zero _ => Some (0, 0, 0)
  | S754_finite false m e => Some (1, e, Z.pos m)
  | S754_finite true m e => Some (-1, - e, Z.neg m)
  end.

Definition key_lt (x y : spec_float) : Prop :=
  match order_key x, order_key y with
  | Some (a, b, c), Some (a', b', c') =>
      a < a' \/ (a = a' /\ (b < b' \/ (b = b' /\ c < c')))
  | _, _ => False
  end.

(** IEEE-754 arithmetic in the format of precision [prec] and infinity
    exponent [emax]. *)
Module IEEE.
Definition float : Type := spec_float.
Definition pinf : float := S754_infinity false.
Definition nan : float := S754_nan.

(** A real number that is not negative: a zero or a positive finite value. *)
Definition nonneg_real (x : float) : bool :=
  match x with
  | S754_zero _ => true
  | S754_finite s _ _ => negb s
  | S754_infinity _ | S754_nan => false
  end.

(** Not below zero: [x < 0] does not hold (a NaN compares with nothing). *)
Definition not_negative (x : float) : bool := negb (SFltb x (S754_zero false)).

(** A real number above zero. *)
Definition positive_real (x : float) : bool :=
  match x with
  | S754_finite false _ _ => true
  | _ => false
  end.

(** A number that is not negative, plus infinity included. *)
Definition nonneg_or_inf (x : float) : bool :=
  match x with
  | S754_zero _ => true
  | S754_infinity s | S754_finite s _ _ => negb s
  | S754_nan => false
  end.

Definition of_Z (prec emax : Z) (z : Z) : float := binary_normalize prec emax z 0 false.

(** A value of another format, rounded to nearest even. *)
Definition round_to (prec emax : Z) (x : float) : float :=
  match x with
  | S754_finite s m e => binary_normalize prec emax (cond_Zopp s (Z.pos m)) e s
  | _ => x
  end.

(** The largest finite value of the format. *)
Definition largest (prec emax : Z) : float := SFmax_float prec emax.

(** The scalars of the format.  The literal [0.001] is a [double], the
    quotient of 1 by 1000 there, converted; [FLT_MAX] is the largest
    binary32 value, converted. *)
Definition scalar (prec emax : Z) : Scalar float := {|
  f0 := S754_zero false;
  fadd := SFadd prec emax;
  fsub := SFsub prec emax;
  fopp := SFopp;
  fmul := SFmul prec emax;
  fdiv := SFdiv prec emax;
  fsqrt := SFsqrt prec emax;
  fltb := SFltb;
  of_int := of_Z prec emax;
  lit_0_001 := round_to prec emax (SFdiv 53 1024 (of_Z 53 1024 1) (of_Z 53 1024 1000));
  FLT_MAX := round_to prec emax (largest 24 128)
|}.
End IEEE.

(** IEEE-754 binary32, the [float] of [main.cc]: 24 bits of precision,
    exponent of infinity 128. *)
Module Binary32.
Definition prec : Z := 24.
Definition emax : Z := 128.
Definition float : Type := IEEE.float.
(** [2^k] for a small exponent [k], as a normal number. *)
Definition pow2 (k : Z) : float := S754_finite false 8388608 (k - 23).
End Binary32.

#[export] Instance binary32 : Scalar Binary32.float :=
  IEEE.scalar Binary32.prec Binary32.emax.

(** The comparison is a strict order; a value [y] that is a number, because
    something lies below it, stands above [x] or below [z] whenever
    [x < z].  IEEE comparison obeys these laws, NaN included. *)
Class ScalarOrder (F : Type) `{Scalar F} : Prop := {
  flt_irrefl : forall x, fltb x x = false;
  flt_trans : forall x y z, fltb x y = true -> fltb y z = true -> fltb x z = true;
  flt_between : forall w x y z,
    fltb w y = true -> fltb x z = true -> fltb x y = true \/ fltb y z = true
}.

Arguments ScalarOrder F {_}.

(** ** Vec3, Ray, Hit *)

Section Geometry.
Context {F : Type} `{Scalar F}.

Record Vec3 : Type := mkVec3 { vx : F; vy : F; vz : F }.

(** Modelled from the spec: [vec3.h] is not part of the sources; the
    operators are the component-wise ones of section 4.1. *)
Definition vadd (a b : Vec3) : Vec3 :=
  mkVec3 (fadd (vx a) (vx b)) (fadd (vy a) (vy b)) (fadd (vz a) (vz b)).
Definition vsub (a b : Vec3) : Vec3 :=
  mkVec3 (fsub (vx a) (vx b)) (fsub (vy a) (vy b)) (fsub (vz a) (vz b)).
Definition vmul (a b : Vec3) : Vec3 :=
  mkVec3 (fmul (vx a) (vx b)) (fmul (vy a) (vy b)) (fmul (vz a) (vz b)).
Definition vscale (k : F) (a : Vec3) : Vec3 :=
  mkVec3 (fmul k (vx a)) (fmul k (vy a)) (fmul k (vz a)).
Definition vdiv (a : Vec3) (k : F) : Vec3 :=
  mkVec3 (fdiv (vx a) k) (fdiv (vy a) k) (fdiv (vz a) k).
Definition dot (a b : Vec3) : F :=
  fadd (fadd (fmul (vx a) (vx b)) (fmul (vy a) (vy b))) (fmul (vz a) (vz b)).
Definition vzero : Vec3 := mkVec3 f0 f0 f0.

(** A property of all three components. *)
Definition vall (P : F -> bool) (a : Vec3) : bool := P (vx a) && P (vy a) && P (vz a).

Record Ray : Type := mkRay { origin : Vec3; direction : Vec3 }.

Definition pointAt (r : Ray) (t : F) : Vec3 :=
  vadd (origin r) (vscale t (direction r)).

Record Hit : Type := mkHit { hit_t : F; hit_point : Vec3; hit_normal : Vec3 }.
End Geometry.

Arguments Vec3 F : clear implicits.
Arguments Ray F : clear implicits.
Arguments Hit F : clear implicits.

(** ** Materials *)

(** The two virtual operations of [Material].  [scatter] may draw random
    numbers: it takes the state of the generator and returns the new one;
    a successful call yields the attenuation and the scattered ray. *)
Record Material (F Rng : Type) : Type := mkMaterial {
  emit : F -> F -> Vec3 F -> Vec3 F;
  scatter : Ray F -> Hit F -> Rng -> option (Vec3 F * Ray F) * Rng
}.

(** ** The integrator *)

Section Integrator.
Context {F : Type} `{Scalar F}.
Variable Rng : Type.

(** [ObjCollection] through the two member functions [color] calls.
    [getHit] yields the [IndexedHit] on success; [getObject] has no value
    at an index that names no object. *)
Variables World Object : Type.
Variable getHit : World -> Ray F -> F -> F -> option (nat * Hit F).
Variable getObject : World -> nat -> option Object.
Variable getMaterial : Object -> Material F Rng.

Definition maxBounceDepth : Z := 25.

(** Bounces still allowed at depth [n]: the measure of the recursion. *)
Definition bounces_left (n : Z) : nat := Z.to_nat (maxBounceDepth - n).

Arguments bounces_left : simpl never.

(** [color], lines 119-137.  The result is [None] when [getObject] is
    called at an index that names no object. *)
Equations (noind) color (world : World) (r : Ray F) (n : Z) (g : Rng)
  : option (Vec3 F * Rng) by wf (bounces_left n) lt :=
  color world r n g :=
    match getHit world r lit_0_001 FLT_MAX with
    | Some (index, hit) =>
        match getObject world index with
        | Some obj =>
            let material := getMaterial obj in
            let emission := emit material f0 f0 vzero in
            match Z_lt_dec n maxBounceDepth with
            | left Hlt =>
                match scatter material r hit g with
                | (Some (attenuation, scattered), g') =>
                    match color world scattered (n + 1) g' with
                    | Some (c, g'') => Some (vadd emission (vmul attenuation c), g'')
                    | None => None
                    end
                | (None, g') => Some (emission, g')
                end
            | right _ => Some (emission, g)
            end
        | None => None
        end
    | None => Some (vzero, g)
    end.
Next Obligation. unfold bounces_left, maxBounceDepth in *. lia. Qed.

(** [color] run on a call stack of at most [fuel] frames: the outer
    [None] is a stack that is too small, the inner one the result of
    [color]. *)
Fixpoint color_fuel (fuel : nat) (world : World) (r : Ray F) (n : Z) (g : Rng)
  : option (option (Vec3 F * Rng)) :=
  match fuel with
  | O => None
  | S fuel' =>
      match getHit world r lit_0_001 FLT_MAX with
      | Some (index, hit) =>
          match getObject world index with
          | Some obj =>
              let material := getMaterial obj in
              let emission := emit material f0 f0 vzero in
              if n <? maxBounceDepth then
                match scatter material r hit g with
                | (Some (attenuation, scattered), g') =>
                    match color_fuel fuel' world scattered (n + 1) g' with
                    | Some (Some (c, g'')) =>
                        Some (Some (vadd emission (vmul attenuation c), g''))
                    | Some None => Some None
                    | None => None
                    end
                | (None, g') => Some (Some (emission, g'))
                end
              else Some (Some (emission, g))
          | None => Some None
          end
      | None => Some (Some (vzero, g))
      end
  end.
End Integrator.

(** ** Sphere and scene collection *)

Section Scene.
Context {F : Type} `{Scalar F}.
Variable Rng : Type.

Record Sphere : Type := mkSphere {
  sphere_material : Material F Rng;
  center : Vec3 F;
  radius : F
}.

(** The open search interval [(tMin, tMax)]. *)
Definition within (tMin tMax t : F) : bool := fltb tMin t && fltb t tMax.

(** Coefficients of [|O + tD - C|^2 = r^2] read as [a t^2 + b t + c = 0]. *)
Definition quad_a (r : Ray F) : F := dot (direction r) (direction r).
Definition quad_b (s : Sphere) (r : Ray F) : F :=
  fmul (of_int 2) (dot (vsub (origin r) (center s)) (direction r)).
Definition quad_c (s : Sphere) (r : Ray F) : F :=
  let oc := vsub (origin r) (center s) in
  fsub (dot oc oc) (fmul (radius s) (radius s)).
Definition discriminant (s : Sphere) (r : Ray F) : F :=
  fsub (fmul (quad_b s r) (quad_b s r))
       (fmul (fmul (of_int 4) (quad_a r)) (quad_c s r)).
Definition root_small (s : Sphere) (r : Ray F) : F :=
  fdiv (fsub (fopp (quad_b s r)) (fsqrt (discriminant s r)))
       (fmul (of_int 2) (quad_a r)).
Definition root_large (s : Sphere) (r : Ray F) : F :=
  fdiv (fadd (fopp (quad_b s r)) (fsqrt (discriminant s r)))
       (fmul (of_int 2) (quad_a r)).

(** The record of an accepted intersection at distance [t]. *)
Definition hit_at (s : Sphere) (r : Ray F) (t : F) : Hit F :=
  let p := pointAt r t in
  mkHit t p (vdiv (vsub p (center s)) (radius s)).

(** Modelled from the spec: [Sphere::hit] ([sphere.h] is not part of the
    sources), section 4.3: no hit on a negative discriminant; otherwise
    the smaller root if it lies in the interval, else the larger one. *)
Definition Sphere_hit (s : Sphere) (r : Ray F) (tMin tMax : F) : option (Hit F) :=
  if fltb (discriminant s r) f0 then None
  else if within tMin tMax (root_small s r) then Some (hit_at s r (root_small s r))
  else if within tMin tMax (root_large s r) then Some (hit_at s r (root_large s r))
  else None.

(** The primitives in insertion order. *)
Definition ObjCollection : Type := list Sphere.

(** The scan of section 4.4 from position [index] on: [closest] is the
    upper bound of the interval, narrowed at every accepted hit. *)
Fixpoint sweep (objs : list Sphere) (index : nat) (r : Ray F) (tMin closest : F)
    (best : option (nat * Hit F)) : option (nat * Hit F) :=
  match objs with
  | [] => best
  | s :: rest =>
      match Sphere_hit s r tMin closest with
      | Some h => sweep rest (S index) r tMin (hit_t h) (Some (index, h))
      | None => sweep rest (S index) r tMin closest best
      end
  end.

(** [closest] never exceeds the upper bound of the query. *)
Definition below (tMax closest : F) : Prop := closest = tMax \/ fltb closest tMax = true.

(** The state of the scan: the running best, when there is one, is what
    [closest] was narrowed to, inside the interval of the query. *)
Definition scan_state (tMin tMax closest : F) (best : option (nat * Hit F)) : Prop :=
  match best with
  | Some (_, h) =>
      closest = hit_t h /\ fltb tMin closest = true /\ fltb closest tMax = true
  | None => closest = tMax
  end.

(** On the ray [r] no sphere of [objs] has its larger root below the
    smaller one. *)
Definition roots_in_order (objs : list Sphere) (r : Ray F) : bool :=
  forallb (fun s => negb (fltb (root_large s r) (root_small s r))) objs.

(** Modelled from the spec: [ObjCollection::getHit] and [getObject]
    ([objcollection.h] is not part of the sources), section 4.4. *)
Definition ObjCollection_getHit (world : ObjCollection) (r : Ray F) (tMin tMax : F)
  : option (nat * Hit F) :=
  sweep world 0%nat r tMin tMax None.

Definition ObjCollection_getObject (world : ObjCollection) (index : nat)
  : option Sphere :=
  nth_error world index.

(** [color] on a collection of spheres. *)
Definition trace : ObjCollection -> Ray F -> Z -> Rng -> option (Vec3 F * Rng) :=
  color ObjCollection_getHit ObjCollection_getObject sphere_material.

Definition trace_fuel (fuel : nat)
  : ObjCollection -> Ray F -> Z -> Rng -> option (option (Vec3 F * Rng)) :=
  color_fuel ObjCollection_getHit ObjCollection_getObject sphere_material fuel.

(** *** Materials of the catalog used by the example scenes *)

Definition norm (v : Vec3 F) : F := fsqrt (dot v v).
Definition normalize (v : Vec3 F) : Vec3 F := vdiv v (norm v).
Definition reflect (v n : Vec3 F) : Vec3 F :=
  vsub v (vscale (fmul (of_int 2) (dot v n)) n).

(** The sampler of a point in the unit sphere, drawing from the generator. *)
Variable randomInUnitSphere : Rng -> Vec3 F * Rng.

(** Modelled from the spec: [Metal] ([metal.h] is not part of the
    sources), section 4.5: mirror reflection of the normalized incoming
    direction, perturbed by [fuzz] times a random point; absorbed when the
    result does not leave the surface.  No emission. *)
Definition Metal (albedo : Vec3 F) (fuzz : F) : Material F Rng :=
  mkMaterial
    (fun _ _ _ => vzero)
    (fun r hit g =>
       let (p, g') := randomInUnitSphere g in
       let reflected := reflect (normalize (direction r)) (hit_normal hit) in
       let d := vadd reflected (vscale fuzz p) in
       if fltb f0 (dot d (hit_normal hit))
       then (Some (albedo, mkRay (hit_point hit) d), g')
       else (None, g')).

(** Modelled from the spec: [DiffuseLight] ([diffuselight.h] is not part
    of the sources), section 4.5: constant emission, never scatters. *)
Definition DiffuseLight (emitted : Vec3 F) : Material F Rng :=
  mkMaterial (fun _ _ _ => emitted) (fun _ _ g => (None, g)).
End Scene.

Arguments Sphere F Rng : clear implicits.
Arguments ObjCollection F Rng : clear implicits.

(** ** The material contracts of section 6, on floats *)

Section Contracts.
Variable Rng : Type.
Variables World Object : Type.
Variable getObject : World -> nat -> option Object.
Variable getMaterial : Object -> Material IEEE.float Rng.

(** The material contract: what a material emits, and the attenuation of
    every successful scatter, are non-negative real numbers in every
    component. *)
Definition material_contract (m : Material IEEE.float Rng) : Prop :=
  (forall u v p, vall IEEE.nonneg_real (emit m u v p) = true)
  /\ (forall r hit g attenuation scattered g',
         scatter m r hit g = (Some (attenuation, scattered), g') ->
         vall IEEE.nonneg_real attenuation = true).

Definition world_contract (world : World) : Prop :=
  forall index obj, getObject world index = Some obj -> material_contract (getMaterial obj).

(** No material of the world ever attenuates a component to zero. *)
Definition attenuation_positive (world : World) : Prop :=
  forall index obj r hit g attenuation scattered g',
    getObject world index = Some obj ->
    scatter (getMaterial obj) r hit g = (Some (attenuation, scattered), g') ->
    vall IEEE.positive_real attenuation = true.
End Contracts.

(** ** The driver: one pixel and the image loops of [writeImage] *)

(** What the driver computes outside [float] arithmetic: [drand48] and the
    gamma expression work on [double], the image holds [unsigned char]. *)
Class Display (F Dbl : Type) : Type := {
  int_plus : Z -> Dbl -> Dbl;     (* x + drand48(), an int plus a double *)
  to_float : Dbl -> F;            (* conversion double -> float *)
  to_double : F -> Dbl;           (* promotion float -> double *)
  dsqrt : Dbl -> Dbl;             (* sqrt *)
  dmul : Dbl -> Dbl -> Dbl;
  dfmin : Dbl -> Dbl -> Dbl;      (* fmin *)
  d255 : Dbl;                     (* the literals 255.0 and 255.00 *)
  to_uchar : F -> Z               (* the cast (unsigned char)(...) *)
}.

Section Driver.
Context {F Dbl : Type} `{Scalar F} `{Display F Dbl}.
Variable Rng : Type.
Variables World Object Camera : Type.
Variable getHit : World -> Ray F -> F -> F -> option (nat * Hit F).
Variable getObject : World -> nat -> option Object.
Variable getMaterial : Object -> Material F Rng.
Variable drand48 : Rng -> Dbl * Rng.
Variable getRay : Camera -> F -> F -> Rng -> Ray F * Rng.

(** Width, height and samples per pixel ([nx], [ny], [ns]). *)
Variables nx ny ns : Z.
Variable cam : Camera.
Variable world : World.

(** Lines 202-204: the jittered ray of one sample. *)
Definition sample_ray (x y : Z) (g : Rng) : Ray F * Rng :=
  let (d1, g1) := drand48 g in
  let u := fdiv (to_float (int_plus x d1)) (of_int nx) in
  let (d2, g2) := drand48 g1 in
  let v := fdiv (to_float (int_plus y d2)) (of_int ny) in
  getRay cam u v g2.

(** Lines 201-206: [k] further iterations of the sample loop, [px]
    being the sum so far. *)
Fixpoint sample_loop (k : nat) (x y : Z) (px : Vec3 F) (g : Rng)
  : option (Vec3 F * Rng) :=
  match k with
  | O => Some (px, g)
  | S k' =>
      let (r, g1) := sample_ray x y g in
      match color getHit getObject getMaterial world r 0 g1 with
      | Some (c, g2) => sample_loop k' x y (vadd px c) g2
      | None => None
      end
  end.

(** Lines 209-211: one channel of the approximate gamma correction. *)
Definition gamma (c : F) : F :=
  to_float (dfmin d255 (dmul d255 (dsqrt (to_double c)))).

(** The three bytes of a pixel, in the order they lie in [image[y][x]]. *)
Record Pixel : Type := mkPixel { byte0 : Z; byte1 : Z; byte2 : Z }.

(** Lines 207-216: average, gamma, cast and store: red goes to byte 2. *)
Definition store_pixel (sum : Vec3 F) : Pixel :=
  let px := vdiv sum (of_int ns) in
  let px := mkVec3 (gamma (vx px)) (gamma (vy px)) (gamma (vz px)) in
  {| byte2 := to_uchar (vx px); byte1 := to_uchar (vy px); byte0 := to_uchar (vz px) |}.

(** Lines 200-216: the body of the loop over [x]. *)
Definition render_pixel (x y : Z) (g : Rng) : option (Pixel * Rng) :=
  match sample_loop (Z.to_nat ns) x y vzero g with
  | Some (sum, g') => Some (store_pixel sum, g')
  | None => None
  end.

(** [image[ny][nx][3]]; a cell is [None] until it is written. *)
Definition Image : Type := Z -> Z -> option Pixel.

Definition store (image : Image) (y x : Z) (p : Pixel) : Image :=
  fun y' x' => if (y' =? y) && (x' =? x) then Some p else image y' x'.

(** Lines 199-217: [k] further iterations of the loop over [x]. *)
Fixpoint row_loop (k : nat) (x y : Z) (image : Image) (g : Rng)
  : option (Image * Rng) :=
  match k with
  | O => Some (image, g)
  | S k' =>
      match render_pixel x y g with
      | Some (p, g') => row_loop k' (x + 1) y (store image y x p) g'
      | None => None
      end
  end.

(** Lines 198-218: [k] further iterations of the loop over [y], taken in
    the order of the source, on one thread. *)
Fixpoint image_loop (k : nat) (y : Z) (image : Image) (g : Rng)
  : option (Image * Rng) :=
  match k with
  | O => Some (image, g)
  | S k' =>
      match row_loop (Z.to_nat nx) 0 y image g with
      | Some (image', g') => image_loop k' (y - 1) image' g'
      | None => None
      end
  end.

Definition render (g : Rng) : option (Image * Rng) :=
  image_loop (Z.to_nat ny) (ny - 1) (fun _ _ => None) g.

(** Line 197, [#pragma omp parallel for]: the rows are shared out among the
    threads, which all draw from the one generator.  A run takes the rows
    in an order of its own; [rows_loop] takes them in the order [ys], one
    whole row at a time. *)
Fixpoint rows_loop (ys : list Z) (image : Image) (g : Rng) : option (Image * Rng) :=
  match ys with
  | [] => Some (image, g)
  | y :: rest =>
      match row_loop (Z.to_nat nx) 0 y image g with
      | Some (image', g') => rows_loop rest image' g'
      | None => None
      end
  end.

(** The rows [y, y - 1, ...], [k] of them: the order of the source. *)
Fixpoint rows_down (k : nat) (y : Z) : list Z :=
  match k with
  | O => []
  | S k' => y :: rows_down k' (y - 1)
  end.

(** The per-sample radiance values of a pixel, in the words of section 6:
    the values of [color] on the [k] sample rays. *)
Fixpoint samples (k : nat) (x y : Z) (g : Rng) : option (list (Vec3 F) * Rng) :=
  match k with
  | O => Some ([], g)
  | S k' =>
      let (r, g1) := sample_ray x y g in
      match color getHit getObject getMaterial world r 0 g1 with
      | Some (c, g2) =>
          match samples k' x y g2 with
          | Some (cs, g3) => Some (c :: cs, g3)
          | None => None
          end
      | None => None
      end
  end.

(** Their mean: the sum from black, in order, over the sample count. *)
Definition mean (cs : list (Vec3 F)) : Vec3 F :=
  vdiv (fold_left vadd cs vzero) (of_int ns).

(** [(unsigned char)(min(255, 255 * sqrt(m)))] for one channel. *)
Definition displayed (m : F) : Z :=
  to_uchar (to_float (dfmin d255 (dmul d255 (dsqrt (to_double m))))).

(** The bytes of a pixel whose samples are [cs]: blue, green, red. *)
Definition displayed_pixel (cs : list (Vec3 F)) : Pixel :=
  {| byte0 := displayed (vz (mean cs));
     byte1 := displayed (vy (mean cs));
     byte2 := displayed (vx (mean cs)) |}.

(** What a pixel of the image holds once it is written. *)
Definition written (p : option (Pixel)) (x y : Z) : Prop :=
  exists g cs g',
    samples (Z.to_nat ns) x y g = Some (cs, g')
    /\ length cs = Z.to_nat ns
    /\ p = Some (displayed_pixel cs).
End Driver.

(** ** The [double] side of the driver, on IEEE-754 binary64 *)

Module Binary64.
Definition prec : Z := 53.
Definition emax : Z := 1024.
Definition double : Type := IEEE.float.

(** The scalars of a renderer that keeps its vectors in [double]. *)
Definition scalar : Scalar double := IEEE.scalar prec emax.

Definition of_float (x : Binary32.float) : double := IEEE.round_to prec emax x.
Definition to_float (x : double) : Binary32.float :=
  IEEE.round_to Binary32.prec Binary32.emax x.
Definition of_Z (z : Z) : double := IEEE.of_Z prec emax z.
Definition add : double -> double -> double := SFadd prec emax.
Definition mul : double -> double -> double := SFmul prec emax.
Definition sqrt : double -> double := SFsqrt prec emax.

(** [fmin]: the smaller argument, the other one when one is a NaN. *)
Definition fmin (x y : double) : double :=
  match SFcompare x y with
  | Some Gt => y
  | Some _ => x
  | None => match x with S754_nan => y | _ => x end
  end.

(** The cast to [unsigned char] truncates; it is defined for values whose
    truncation lies in 0..255, and taken modulo 256 here outside. *)
Definition to_uchar (x : Binary32.float) : Z :=
  match x with
  | S754_finite s m e => (Z.quot (cond_Zopp s (Z.pos m * 2 ^ (e + 149))) (2 ^ 149)) mod 256
  | _ => 0
  end.

(** [drand48] of POSIX: a 48-bit linear congruential generator whose
    state, scaled by [2^-48], is the value returned. *)
Definition drand48 (state : Z) : double * Z :=
  let state' := (25214903917 * state + 11) mod 2 ^ 48 in
  (binary_normalize prec emax state' (-48) false, state').
End Binary64.

#[export] Instance display32 : Display Binary32.float Binary64.double := {|
  int_plus := fun x d => Binary64.add (Binary64.of_Z x) d;
  to_float := Binary64.to_float;
  to_double := Binary64.of_float;
  dsqrt := Binary64.sqrt;
  dmul := Binary64.mul;
  dfmin := Binary64.fmin;
  d255 := Binary64.of_Z 255;
  to_uchar := Binary64.to_uchar
|}.

(** ** Example scenes, on binary32 *)

Module Scenes.
Definition F : Type := Binary32.float.
(** The generator is the state of [drand48]. *)
Definition Rng : Type := Z.

Definition num (z : Z) : F := of_int z.
Definition vec (x y z : Z) : Vec3 F := mkVec3 (num x) (num y) (num z).

(** With fuzziness 0 the random point is multiplied by zero; the scenes
    below take it at the centre and leave the generator alone. *)
Definition centre_sample (g : Rng) : Vec3 F * Rng := (vzero, g).

Definition mirror (albedo : Vec3 F) : Material F Rng :=
  Metal centre_sample albedo f0.
Definition light (emitted : Vec3 F) : Material F Rng :=
  DiffuseLight Rng emitted.

(** No primitive at all. *)
Definition empty_world : ObjCollection F Rng := [].

(** Section 8: the unit sphere at the origin, seen from [(0,0,5)]. *)
Definition unit_sphere : Sphere F Rng := mkSphere (light (vec 1 1 1)) (vec 0 0 0) (num 1).
Definition probe : Ray F := mkRay (vec 0 0 5) (vec 0 0 (-1)).

(** Section 8: two overlapping spheres on the probe ray; the second one
    of the collection is the nearer. *)
Definition overlapping : ObjCollection F Rng :=
  [ unit_sphere; mkSphere (light (vec 2 2 2)) (vec 0 0 1) (num 1) ].

(** Section 8: two perfect mirrors of full albedo facing each other. *)
Definition mirrors : ObjCollection F Rng :=
  [ mkSphere (mirror (vec 1 1 1)) (vec 0 0 10) (num 1);
    mkSphere (mirror (vec 1 1 1)) (vec 0 0 (-10)) (num 1) ].
Definition axis_ray : Ray F := mkRay (vec 0 0 0) (vec 0 0 1).

(** A black mirror, a mirror of albedo 4 and a light of emission [2^127]:
    the ray along the x axis is turned upwards by the first sphere, back
    to the x direction by the second, and ends on the light. *)
Definition huge : F := Binary32.pow2 127.
Definition overflow_scene : ObjCollection F Rng :=
  [ mkSphere (mirror (vec 0 0 0)) (vec 6 (-1) 0) (fsqrt (num 2));
    mkSphere (mirror (vec 4 4 4)) (vec 4 6 0) (fsqrt (num 2));
    mkSphere (light (mkVec3 huge huge huge)) (vec 20 5 0) (num 3) ].
Definition x_ray : Ray F := mkRay (vec 0 0 0) (vec 1 0 0).

(** A mirror of albedo [(1,2,3)] that turns the ray along the x axis
    upwards, onto a light of emission [(1,1,1)]. *)
Definition lit_mirror : ObjCollection F Rng :=
  [ mkSphere (mirror (vec 1 2 3)) (vec 6 (-1) 0) (fsqrt (num 2));
    mkSphere (light (vec 1 1 1)) (vec 5 20 0) (num 3) ].

(** A light whose emission varies with the surface coordinates and the
    point it is asked about. *)
Definition patterned : Material F Rng :=
  mkMaterial (fun u v p => mkVec3 (fadd u (vx p)) (fadd v (vy p)) (vz p))
             (fun _ _ g => (None, g)).
Definition patterned_world : ObjCollection F Rng :=
  [ mkSphere patterned (vec 0 0 0) (num 1) ].
Definition probe' : Ray F := mkRay (vec 5 0 0) (vec (-1) 0 0).

(** A camera for the driver: a fixed eye looking down the z axis. *)
Definition eye_ray (_ : unit) (u v : F) (g : Rng) : Ray F * Rng :=
  (mkRay (vec 0 0 5) (mkVec3 (fsub u (Binary32.pow2 (-1))) (fsub v (Binary32.pow2 (-1))) (num (-1))), g).

(** A render of two by two pixels with two samples each, of the unit
    sphere taken as a light of emission [(1,1,1)]. *)
Definition tiny_render (seed : Rng) : option (Image * Rng) :=
  render (@ObjCollection_getHit F binary32 Rng) (@ObjCollection_getObject F Rng)
    (@sphere_material F Rng) Binary64.drand48 eye_ray 2 2 2 tt [unit_sphere] seed.
(** The same render with the rows taken in the order [ys]. *)
Definition tiny_rows (ys : list Z) (seed : Rng) : option (Image * Rng) :=
  rows_loop (@ObjCollection_getHit F binary32 Rng) (@ObjCollection_getObject F Rng)
    (@sphere_material F Rng) Binary64.drand48 eye_ray 2 2 2 tt [unit_sphere] ys
    (fun _ _ => None) seed.
Definition tiny_samples (x y : Z) (g : Rng) : option (list (Vec3 F) * Rng) :=
  samples (@ObjCollection_getHit F binary32 Rng) (@ObjCollection_getObject F Rng)
    (@sphere_material F Rng) Binary64.drand48 eye_ray 2 2 tt [unit_sphere] 2 x y g.
End Scenes.

(** The overflow scene once more for a renderer that keeps its vectors in
    [double]: the light emits the largest finite binary64 value. *)
Module DoubleScenes.
Definition F : Type := Binary64.double.
Definition Rng : Type := Z.

Definition num (z : Z) : F := @of_int F Binary64.scalar z.
Definition vec (x y z : Z) : Vec3 F := mkVec3 (num x) (num y) (num z).
Definition centre_sample (g : Rng) : Vec3 F * Rng := (@vzero F Binary64.scalar, g).
Definition mirror (albedo : Vec3 F) : Material F Rng :=
  @Metal F Binary64.scalar Rng centre_sample albedo (@f0 F Binary64.scalar).
Definition light (emitted : Vec3 F) : Material F Rng :=
  DiffuseLight Rng emitted.

Definition huge : F := IEEE.largest Binary64.prec Binary64.emax.
Definition root_two : F := @fsqrt F Binary64.scalar (num 2).
Definition overflow_scene : ObjCollection F Rng :=
  [ mkSphere (mirror (vec 0 0 0)) (vec 6 (-1) 0) root_two;
    mkSphere (mirror (vec 4 4 4)) (vec 4 6 0) root_two;
    mkSphere (light (mkVec3 huge huge huge)) (vec 20 5 0) (num 3) ].
Definition x_ray : Ray F := mkRay (vec 0 0 0) (vec 1 0 0).

Definition trace : ObjCollection F Rng -> Ray F -> Z -> Rng -> option (Vec3 F * Rng) :=
  @trace F Binary64.scalar Rng.
End DoubleScenes.

(** Rays and spheres for the intersection test, on binary32; every
    coordinate is a small integer, so the arithmetic of the test is exact
    on them. *)
Module Probes.
Definition sphere (cx cy cz radius : Z) : Sphere Scenes.F Scenes.Rng :=
  mkSphere (Scenes.light (Scenes.vec 1 1 1)) (Scenes.vec cx cy cz) (Scenes.num radius).
Definition ray (ox oy oz dx dy dz : Z) : Ray Scenes.F :=
  mkRay (Scenes.vec ox oy oz) (Scenes.vec dx dy dz).
Definition hit (t : Z) (px py pz nx ny nz : Z) : Hit Scenes.F :=
  mkHit (Scenes.num t) (Scenes.vec px py pz) (Scenes.vec nx ny nz).
(** [n / d], for a distance or a coordinate that is no integer. *)
Definition ratio (n d : Z) : Scenes.F := fdiv (Scenes.num n) (Scenes.num d).
End Probes.

(** ** The bitmap file: [generateBitmapImage] and the two headers *)

Module Bitmap.
Definition BYTES_PER_PIXEL : Z := 3.
Definition FILE_HEADER_SIZE : Z := 14.
Definition INFO_HEADER_SIZE : Z := 40.

(** An [int] has 32 bits.  Its overflow is undefined in C++; the model wraps
    around as two's complement does, and the properties below that depend
    on a value assume it in range. *)
Definition int (z : Z) : Z := (z + 2 ^ 31) mod 2 ^ 32 - 2 ^ 31.

(** The cast [(unsigned char)(...)] of an [int]; [>>] is [Z.shiftr]. *)
Definition uchar (z : Z) : Z := z mod 256.
Definition char_code (c : ascii) : Z := Z.of_N (N_of_ascii c).

(** [buf[i] = v], for [i] inside the array. *)
Fixpoint poke (buf : list Z) (i : nat) (v : Z) : list Z :=
  match buf, i with
  | [], _ => []
  | _ :: rest, O => v :: rest
  | b :: rest, S i' => b :: poke rest i' v
  end.

(** The two headers are [static] arrays: they start as zeros and keep
    their bytes from one call to the next.  The functions take the array
    as it is and return it as they leave it. *)
Definition fileHeader_static : list Z := repeat 0 14.
Definition infoHeader_static : list Z := repeat 0 40.

(** Lines 65-85. *)
Definition createBitmapFileHeader (fileHeader : list Z) (height stride : Z) : list Z :=
  let fileSize := int (int (FILE_HEADER_SIZE + INFO_HEADER_SIZE) + int (stride * height)) in
  let fileHeader := poke fileHeader 0 (uchar (char_code "B")) in
  let fileHeader := poke fileHeader 1 (uchar (char_code "M")) in
  let fileHeader := poke fileHeader 2 (uchar fileSize) in
  let fileHeader := poke fileHeader 3 (uchar (Z.shiftr fileSize 8)) in
  let fileHeader := poke fileHeader 4 (uchar (Z.shiftr fileSize 16)) in
  let fileHeader := poke fileHeader 5 (uchar (Z.shiftr fileSize 24)) in
  poke fileHeader 10 (uchar (int (FILE_HEADER_SIZE + INFO_HEADER_SIZE))).

(** Lines 87-116. *)
Definition createBitmapInfoHeader (infoHeader : list Z) (height width : Z) : list Z :=
  let infoHeader := poke infoHeader 0 (uchar INFO_HEADER_SIZE) in
  let infoHeader := poke infoHeader 4 (uchar width) in
  let infoHeader := poke infoHeader 5 (uchar (Z.shiftr width 8)) in
  let infoHeader := poke infoHeader 6 (uchar (Z.shiftr width 16)) in
  let infoHeader := poke infoHeader 7 (uchar (Z.shiftr width 24)) in
  let infoHeader := poke infoHeader 8 (uchar height) in
  let infoHeader := poke infoHeader 9 (uchar (Z.shiftr height 8)) in
  let infoHeader := poke infoHeader 10 (uchar (Z.shiftr height 16)) in
  let infoHeader := poke infoHeader 11 (uchar (Z.shiftr height 24)) in
  let infoHeader := poke infoHeader 12 (uchar 1) in
  poke infoHeader 14 (uchar (int (BYTES_PER_PIXEL * 8))).

(** The contents a static header can have when a call begins. *)
Inductive fileHeader_state : list Z -> Prop :=
| fileHeader_fresh : fileHeader_state fileHeader_static
| fileHeader_reused buf height stride :
    fileHeader_state buf -> fileHeader_state (createBitmapFileHeader buf height stride).

Inductive infoHeader_state : list Z -> Prop :=
| infoHeader_fresh : infoHeader_state infoHeader_static
| infoHeader_reused buf height width :
    infoHeader_state buf -> infoHeader_state (createBitmapInfoHeader buf height width).

(** [fopen (imageFileName, "wb")]: [writable] tells which files the system
    lets the program open for writing.  The stream of a file just opened is
    empty; a call that fails returns the null pointer, [None]. *)
Definition fopen (writable : String.string -> bool) (imageFileName : String.string)
  : option (list Z) :=
  if writable imageFileName then Some [] else None.

(** [fwrite (ptr + offset, size, count, stream)] on an open stream, the
    list of the bytes written since [fopen].  Reading outside the array
    [ptr], and a negative count, which [size_t] turns into a huge one, have
    no defined result. *)
Definition fwrite (ptr : list Z) (offset size count : Z) (stream : list Z)
  : option (list Z) :=
  if (0 <=? offset) && (0 <=? count) && (offset + size * count <=? Z.of_nat (length ptr))
  then Some (stream ++ firstn (Z.to_nat (size * count)) (skipn (Z.to_nat offset) ptr))
  else None.

Definition padding : list Z := [0; 0; 0].

(** Lines 57-60: [k] further iterations of the loop over the rows. *)
Fixpoint write_rows (k : nat) (i : Z) (image : list Z) (width widthInBytes paddingSize : Z)
    (imageFile : list Z) : option (list Z) :=
  match k with
  | O => Some imageFile
  | S k' =>
      match fwrite image (int (i * widthInBytes)) BYTES_PER_PIXEL width imageFile with
      | Some imageFile1 =>
          match fwrite padding 0 1 paddingSize imageFile1 with
          | Some imageFile2 =>
              write_rows k' (int (i + 1)) image width widthInBytes paddingSize imageFile2
          | None => None
          end
      | None => None
      end
  end.

(** Lines 41, 44 and 46; [%] truncates, as [Z.rem] does. *)
Definition widthInBytes (width : Z) : Z := int (width * BYTES_PER_PIXEL).
Definition paddingSize (width : Z) : Z :=
  Z.rem (int (4 - Z.rem (widthInBytes width) 4)) 4.
Definition stride (width : Z) : Z := int (widthInBytes width + paddingSize width).

(** Lines 39-63: the bytes of the file once it is closed.  The result of
    [fopen] is not tested: on the null pointer the first [fwrite], line 51,
    has no defined result. *)
Definition generateBitmapImage (writable : String.string -> bool)
    (fileHeader infoHeader : list Z) (image : list Z) (height width : Z)
    (imageFileName : String.string) : option (list Z) :=
  match fopen writable imageFileName with
  | None => None
  | Some imageFile =>
      let fileHeader := createBitmapFileHeader fileHeader height (stride width) in
      match fwrite fileHeader 0 1 FILE_HEADER_SIZE imageFile with
      | Some imageFile =>
          let infoHeader := createBitmapInfoHeader infoHeader height width in
          match fwrite infoHeader 0 1 INFO_HEADER_SIZE imageFile with
          | Some imageFile =>
              write_rows (Z.to_nat height) 0 image width (widthInBytes width)
                (paddingSize width) imageFile
          | None => None
          end
      | None => None
      end
  end.

(** Byte [n] of a file or of an array. *)
Definition byte_at (bytes : list Z) (n : Z) : option Z :=
  if n <? 0 then None else nth_error bytes (Z.to_nat n).

(** What a reader of the file decodes: the little-endian field of 16 bits
    at [n], and the one of 32 bits. *)
Definition le16 (bytes : list Z) (n : nat) : Z :=
  nth n bytes 0 + 256 * nth (n + 1) bytes 0.
Definition le32 (bytes : list Z) (n : nat) : Z :=
  le16 bytes n + 65536 * le16 bytes (n + 2).
End Bitmap.

(** ** The image handed to the bitmap writer *)

Definition white : Pixel := {| byte0 := 255; byte1 := 255; byte2 := 255 |}.
Definition black : Pixel := {| byte0 := 0; byte1 := 0; byte2 := 0 |}.

(** The bytes of [image[y][x]]. *)
Definition pixel_bytes (p : Pixel) : list Z := [byte0 p; byte1 p; byte2 p].

(** Line 219, [(unsigned char* ) image]: the array [image[ny][nx][3]] as the
    bytes it occupies, row after row.  A cell that was never written holds
    no defined value. *)
Fixpoint row_bytes (k : nat) (x : Z) (row : Z -> option Pixel) : option (list Z) :=
  match k with
  | O => Some []
  | S k' =>
      match row x, row_bytes k' (x + 1) row with
      | Some p, Some rest => Some (pixel_bytes p ++ rest)
      | _, _ => None
      end
  end.

Fixpoint image_bytes (k : nat) (y : Z) (nx : Z) (image : Image) : option (list Z) :=
  match k with
  | O => Some []
  | S k' =>
      match row_bytes (Z.to_nat nx) 0 (image y), image_bytes k' (y + 1) nx image with
      | Some row, Some rest => Some (row ++ rest)
      | _, _ => None
      end
  end.

(** The three bytes of a pixel lie at the offset [n] of a file or array. *)
Definition holds (bytes : list Z) (n : Z) (p : Pixel) : Prop :=
  Bitmap.byte_at bytes n = Some (byte0 p)
  /\ Bitmap.byte_at bytes (n + 1) = Some (byte1 p)
  /\ Bitmap.byte_at bytes (n + 2) = Some (byte2 p).

Module WriteImage.
Import String.
(** Line 187. *)
Definition imageFileName : string := "bitmapImage.bmp"%string.
End WriteImage.

Section Output.
Context {F Dbl : Type} `{Scalar F} `{Display F Dbl}.
Variable Rng : Type.
Variables World Object Camera : Type.
Variable getHit : World -> Ray F -> F -> F -> option (nat * Hit F).
Variable getObject : World -> nat -> option Object.
Variable getMaterial : Object -> Material F Rng.
Variable drand48 : Rng -> Dbl * Rng.
Variable getRay : Camera -> F -> F -> Rng -> Ray F * Rng.
Variables nx ny ns : Z.
Variable cam : Camera.
Variable world : World.

(** Lines 181-221, the loops run on one thread: the bytes of the file
    written and the generator as it is left.  The image is an array of
    [ny * nx * 3] bytes on the stack, line 186: [stack] is the room the
    stack has left for it, and an array that does not fit has no defined
    behaviour.  [writable] is the file system as [fopen] sees it. *)
Definition writeImage (writable : String.string -> bool) (stack : Z)
    (fileHeader infoHeader : list Z) (g : Rng) : option (list Z * Rng) :=
  if ny * nx * Bitmap.BYTES_PER_PIXEL <=? stack then
    match render getHit getObject getMaterial drand48 getRay nx ny ns cam world g with
    | Some (image, g') =>
        match image_bytes (Z.to_nat ny) 0 nx image with
        | Some bytes =>
            match Bitmap.generateBitmapImage writable fileHeader infoHeader bytes ny nx
                    WriteImage.imageFileName with
            | Some file => Some (file, g')
            | None => None
            end
        | None => None
        end
    | None => None
    end
  else None.
End Output.

(** The tiny render of module [Scenes] written to a file, and a tiny render
    of a world without a light: the unit sphere as a mirror. *)
Module Outputs.
(** An array of twelve bytes: two rows of two pixels. *)
Definition ramp : list Z := [1; 2; 3; 4; 5; 6; 7; 8; 9; 10; 11; 12].

(** A file system that lets every file be written, one that lets none,
    and a stack with a megabyte of room. *)
Definition everywhere (_ : String.string) : bool := true.
Definition nowhere (_ : String.string) : bool := false.
Definition megabyte : Z := 2 ^ 20.

Definition tiny_file (seed : Scenes.Rng) : option (list Z * Scenes.Rng) :=
  writeImage (@ObjCollection_getHit Scenes.F binary32 Scenes.Rng)
    (@ObjCollection_getObject Scenes.F Scenes.Rng)
    (@sphere_material Scenes.F Scenes.Rng) Binary64.drand48 Scenes.eye_ray 2 2 2 tt
    [Scenes.unit_sphere] everywhere megabyte
    Bitmap.fileHeader_static Bitmap.infoHeader_static seed.

Definition mirror_world : ObjCollection Scenes.F Scenes.Rng :=
  [ mkSphere (Scenes.mirror (Scenes.vec 1 1 1)) (Scenes.vec 0 0 0) (Scenes.num 1) ].
Definition dark_render (seed : Scenes.Rng) : option (Image * Scenes.Rng) :=
  render (@ObjCollection_getHit Scenes.F binary32 Scenes.Rng)
    (@ObjCollection_getObject Scenes.F Scenes.Rng)
    (@sphere_material Scenes.F Scenes.Rng) Binary64.drand48 Scenes.eye_ray 2 2 2 tt
    mirror_world seed.
End Outputs.

(** ** Scenes without a light *)

Definition is_zero (x : IEEE.float) : bool :=
  match x with
  | S754_zero _ => true
  | _ => false
  end.

(** Infinite, or not a number. *)
Definition not_finite (x : IEEE.float) : bool :=
  match x with
  | S754_infinity _ | S754_nan => true
  | _ => false
  end.

Section Dark.
Variable Rng : Type.
Variables World Object : Type.
Variable getObject : World -> nat -> option Object.
Variable getMaterial : Object -> Material IEEE.float Rng.

(** No object of the world emits anything. *)
Definition no_emission (world : World) : Prop :=
  forall index obj, getObject world index = Some obj ->
    forall u v p, vall is_zero (emit (getMaterial obj) u v p) = true.
End Dark.

(** ** The scene of [main.cc]: [createWorld] *)

Section CreateWorld.
Variable Rng : Type.
Local Abbreviation F := Binary32.float.

(** The constructors of the material classes, as [createWorld] calls them;
    their headers are not part of the sources.  [make_Metal1] is
    [Metal(albedo)], the fuzziness left to its default. *)
Record Catalog : Type := mkCatalog {
  make_Lambertian : Vec3 F -> Material F Rng;
  make_Metal : Vec3 F -> F -> Material F Rng;
  make_Metal1 : Vec3 F -> Material F Rng;
  make_Dielectric : F -> Material F Rng;
  make_DiffuseLight : Vec3 F -> Material F Rng
}.

(** The decimal literal [n / d]: a [double], converted to [float]. *)
Definition literal (n d : Z) : F :=
  Binary64.to_float
    (SFdiv Binary64.prec Binary64.emax (Binary64.of_Z n) (Binary64.of_Z d)).

(** Modelled from the spec: [ObjCollection::addObject] ([objcollection.h]
    is not part of the sources) adds a primitive after the ones held. *)
Definition addObject (world : ObjCollection F Rng) (object : Sphere F Rng)
  : ObjCollection F Rng :=
  world ++ [object].

(** Lines 139-179. *)
Definition createWorld (catalog : Catalog) : ObjCollection F Rng :=
  let world := [] in
  let albedo := mkVec3 (literal 4 100) (literal 4 10) (literal 14 100) in
  let lambertianGreen := make_Lambertian catalog albedo in
  let albedo := mkVec3 (literal 99 100) (literal 87 100) (literal 15 100) in
  let lambertianBlue := make_Lambertian catalog albedo in
  let albedo := mkVec3 (literal 8 10) (literal 6 10) (literal 2 10) in
  let fuzz := literal 1 10 in
  let gold := make_Metal catalog albedo fuzz in
  let albedo := mkVec3 (literal 8 10) (literal 8 10) (literal 8 10) in
  let silver := make_Metal1 catalog albedo in
  let ri := literal 15 10 in
  let glass := make_Dielectric catalog ri in
  let center := mkVec3 (literal (-55) 100) (literal 0 1) (literal (-15) 10) in
  let radius := literal 5 10 in
  let world := addObject world (mkSphere gold center (literal 5 10)) in
  let center := mkVec3 (literal 55 100) (literal 0 1) (literal (-15) 10) in
  let radius := literal 5 10 in
  let world := addObject world (mkSphere silver center radius) in
  let center := mkVec3 (literal 1 10) (literal (-3) 10) (literal (-105) 100) in
  let radius := literal 2 10 in
  let world := addObject world (mkSphere glass center radius) in
  let center := mkVec3 (literal 0 1) (literal (-1005) 10) (literal (-1) 1) in
  let radius := literal 100 1 in
  let world := addObject world (mkSphere lambertianGreen center radius) in
  let center := mkVec3 (literal (-11) 10) (literal 50 1) (literal 105 100) in
  let radius := of_int 20 in
  let color := vscale (of_int 3) (mkVec3 (literal 1 1) (literal 1 1) (literal 1 1)) in
  let light := make_DiffuseLight catalog color in
  let world := addObject world (mkSphere light center radius) in
  let center := mkVec3 (literal 11 10) (literal 50 1) (literal (-105) 100) in
  let radius := of_int 10 in
  let world := addObject world (mkSphere light center radius) in
  world.

(** What section 4.5 says of the classes: a reflector emits nothing and
    attenuates by its albedo whenever it scatters; a lamp emits its colour
    and never scatters. *)
Definition reflector (m : Material F Rng) (albedo : Vec3 F) : Prop :=
  (forall u v p, emit m u v p = vzero)
  /\ (forall r hit g attenuation scattered g',
         scatter m r hit g = (Some (attenuation, scattered), g') ->
         attenuation = albedo).

Definition lamp (m : Material F Rng) (colour : Vec3 F) : Prop :=
  (forall u v p, emit m u v p = colour)
  /\ (forall r hit g, fst (scatter m r hit g) = None).

Definition catalog_contract (catalog : Catalog) : Prop :=
  (forall albedo, reflector (make_Lambertian catalog albedo) albedo)
  /\ (forall albedo fuzz, reflector (make_Metal catalog albedo fuzz) albedo)
  /\ (forall albedo, reflector (make_Metal1 catalog albedo) albedo)
  /\ (forall ri,
        reflector (make_Dielectric catalog ri)
          (mkVec3 (literal 1 1) (literal 1 1) (literal 1 1)))
  /\ (forall colour, lamp (make_DiffuseLight catalog colour) colour).
End CreateWorld.

(** The scene of [main.cc] with stand-ins for the material classes: a
    diffuse surface that scatters along the normal, the [Metal] of module
    [Scenes], a glass that lets the ray through, and [DiffuseLight]. *)
Module MainScene.
Definition diffuse (albedo : Vec3 Scenes.F) : Material Scenes.F Scenes.Rng :=
  mkMaterial (fun _ _ _ => vzero)
             (fun _ hit g => (Some (albedo, mkRay (hit_point hit) (hit_normal hit)), g)).
Definition glass (ri : Scenes.F) : Material Scenes.F Scenes.Rng :=
  mkMaterial (fun _ _ _ => vzero)
             (fun r hit g =>
                (Some (mkVec3 (literal 1 1) (literal 1 1) (literal 1 1),
                       mkRay (hit_point hit) (direction r)), g)).
Definition catalog : Catalog Scenes.Rng :=
  mkCatalog diffuse
    (fun albedo fuzz => Metal Scenes.centre_sample albedo fuzz)
    (fun albedo => Metal Scenes.centre_sample albedo f0)
    glass Scenes.light.
Definition world : ObjCollection Scenes.F Scenes.Rng := createWorld catalog.
(** From the eye of [writeImage] towards the point it looks at. *)
Definition central_ray : Ray Scenes.F :=
  let origin := mkVec3 (literal 1 1) (literal 5 10) (literal 1 1) in
  let lookAt := mkVec3 (literal 0 1) (literal 0 1) (literal (-15) 10) in
  mkRay origin (vsub lookAt origin).
End MainScene.

(** * Properties *)

(** ** The integrator *)

Section IntegratorFacts.
Context {F : Type} `{Scalar F}.
Variable Rng : Type.
Variables World Object : Type.
Variable getHit : World -> Ray F -> F -> F -> option (nat * Hit F).
Variable getObject : World -> nat -> option Object.
Variable getMaterial : Object -> Material F Rng.

Local Abbreviation color := (color getHit getObject getMaterial).
Local Abbreviation color_fuel := (color_fuel getHit getObject getMaterial).

Lemma bounces_left_cap (n : Z) : maxBounceDepth <= n -> bounces_left n = 0%nat.
Proof. unfold bounces_left. lia. Qed.

Lemma bounces_left_succ (n : Z) :
  n < maxBounceDepth -> bounces_left n = S (bounces_left (n + 1)).
Proof. unfold bounces_left. lia. Qed.

(** The body of [color] once the hit and its object are known. *)
Lemma color_on_hit world r n g index hit obj :
  getHit world r lit_0_001 FLT_MAX = Some (index, hit) ->
  getObject world index = Some obj ->
  color world r n g =
    let material := getMaterial obj in
    let emission := emit material f0 f0 vzero in
    if n <? maxBounceDepth then
      match scatter material r hit g with
      | (Some (attenuation, scattered), g') =>
          match color world scattered (n + 1) g' with
          | Some (c, g'') => Some (vadd emission (vmul attenuation c), g'')
          | None => None
          end
      | (None, g') => Some (emission, g')
      end
    else Some (emission, g).
Proof.
  intros Hhit Hobj. rewrite color_equation_1, Hhit, Hobj. cbv zeta.
  destruct (Z_lt_dec n maxBounceDepth) as [Hlt | Hge].
  - apply Z.ltb_lt in Hlt. rewrite Hlt.
    destruct (scatter (getMaterial obj) r hit g) as [[[a s] | ] g']; reflexivity.
  - apply Z.ltb_nlt in Hge. rewrite Hge. reflexivity.
Qed.

(** One frame of [color_fuel]. *)
Lemma color_fuel_step fuel world r n g :
  color_fuel (S fuel) world r n g =
    match getHit world r lit_0_001 FLT_MAX with
    | Some (index, hit) =>
        match getObject world index with
        | Some obj =>
            let material := getMaterial obj in
            let emission := emit material f0 f0 vzero in
            if n <? maxBounceDepth then
              match scatter material r hit g with
              | (Some (attenuation, scattered), g') =>
                  match color_fuel fuel world scattered (n + 1) g' with
                  | Some (Some (c, g'')) =>
                      Some (Some (vadd emission (vmul attenuation c), g''))
                  | Some None => Some None
                  | None => None
                  end
              | (None, g') => Some (Some (emission, g'))
              end
            else Some (Some (emission, g))
        | None => Some None
        end
    | None => Some (Some (vzero, g))
    end.
Proof. reflexivity. Qed.

(** A stack of one frame more than the bounces left is enough. *)
Lemma color_fuel_enough (k : nat) :
  forall world r n g,
    (bounces_left n <= k)%nat ->
    color_fuel (S k) world r n g = Some (color world r n g).
Proof.
  induction k as [ | k IH]; intros world r n g Hk;
    rewrite color_fuel_step, color_equation_1;
    (destruct (getHit world r lit_0_001 FLT_MAX) as [[index hit] | ]; [ | reflexivity]);
    (destruct (getObject world index) as [obj | ]; [ | reflexivity]);
    cbv zeta;
    (destruct (Z_lt_dec n maxBounceDepth) as [Hlt | Hge];
     [ | apply Z.ltb_nlt in Hge; rewrite Hge; reflexivity]).
  - rewrite (bounces_left_succ Hlt) in Hk. lia.
  - pose proof Hlt as Hlt'. apply Z.ltb_lt in Hlt'. rewrite Hlt'.
    destruct (scatter (getMaterial obj) r hit g) as [[[a s] | ] g']; [ | reflexivity].
    rewrite IH by (rewrite (bounces_left_succ Hlt) in Hk; lia).
    destruct (color world s (n + 1) g') as [[c g''] | ]; reflexivity.
Qed.

(** C1: on a hit, [color] takes the emission of the hit material; below
    the cap and with a successful scatter it adds the attenuation times
    the radiance of the scattered ray at depth [n + 1], component by
    component; when scatter fails or the cap is reached it returns the
    emission alone. *)
Theorem color_hit_emission_and_scatter world r n g index hit obj :
  getHit world r lit_0_001 FLT_MAX = Some (index, hit) ->
  getObject world index = Some obj ->
  let material := getMaterial obj in
  let emission := emit material f0 f0 vzero in
  (forall attenuation scattered g' c g'',
      n < maxBounceDepth ->
      scatter material r hit g = (Some (attenuation, scattered), g') ->
      color world scattered (n + 1) g' = Some (c, g'') ->
      color world r n g = Some (vadd emission (vmul attenuation c), g''))
  /\ (forall g',
      n < maxBounceDepth ->
      scatter material r hit g = (None, g') ->
      color world r n g = Some (emission, g'))
  /\ (maxBounceDepth <= n -> color world r n g = Some (emission, g)).
Proof.
  intros Hhit Hobj material emission.
  pose proof (color_on_hit n g Hhit Hobj) as Hbody. cbv zeta in Hbody.
  fold material in Hbody. fold emission in Hbody.
  repeat split.
  - intros a s g' c g'' Hlt Hsc Hrec. apply Z.ltb_lt in Hlt.
    now rewrite Hbody, Hlt, Hsc, Hrec.
  - intros g' Hlt Hsc. apply Z.ltb_lt in Hlt. now rewrite Hbody, Hlt, Hsc.
  - intros Hge. apply Z.ltb_ge in Hge. now rewrite Hbody, Hge.
Qed.

(** C2: [color] terminates on every scene: a call at depth [n] needs a
    stack of no more than [25 - n] frames below its own, and at the cap
    of 25 it does not recurse at all. *)
Theorem color_recursion_bounded world r n g :
  (forall fuel, (Z.to_nat (25 - n) < fuel)%nat ->
                color_fuel fuel world r n g = Some (color world r n g))
  /\ (25 <= n -> color_fuel 1 world r n g = Some (color world r n g)).
Proof.
  split.
  - intros [ | k] Hk; [lia | ].
    apply color_fuel_enough. unfold bounces_left, maxBounceDepth. lia.
  - intros Hn. apply color_fuel_enough. rewrite bounces_left_cap; [lia | exact Hn].
Qed.

(** C3: a ray that hits nothing yields exactly black, at every depth, and
    leaves the generator untouched. *)
Theorem color_miss_is_black world r n g :
  getHit world r lit_0_001 FLT_MAX = None ->
  color world r n g = Some (mkVec3 f0 f0 f0, g).
Proof. intros Hmiss. now rewrite color_equation_1, Hmiss. Qed.
End IntegratorFacts.

(** ** What [color] reads of its collaborators *)

Section IntegratorReads.
Context {F : Type} `{Scalar F}.
Variable Rng : Type.
Variables World Object : Type.
Variables getHit getHit' : World -> Ray F -> F -> F -> option (nat * Hit F).
Variable getObject : World -> nat -> option Object.
Variables getMaterial getMaterial' : Object -> Material F Rng.

(** Two collections that answer alike on the interval [(0.001, FLT_MAX)],
    and two material tables that scatter alike and emit alike at
    [(0, 0, (0,0,0))], give the same radiance. *)
Lemma color_ext :
  (forall world r, getHit world r lit_0_001 FLT_MAX = getHit' world r lit_0_001 FLT_MAX) ->
  (forall obj r hit g,
      scatter (getMaterial obj) r hit g = scatter (getMaterial' obj) r hit g) ->
  (forall obj, emit (getMaterial obj) f0 f0 vzero = emit (getMaterial' obj) f0 f0 vzero) ->
  forall world r n g,
    color getHit getObject getMaterial world r n g
    = color getHit' getObject getMaterial' world r n g.
Proof.
  intros Hhit Hsc Hem world r n g.
  remember (bounces_left n) as k eqn:Hk.
  revert r n g Hk.
  induction k as [k IH] using lt_wf_ind. intros r n g Hk.
  rewrite 2 color_equation_1, <- Hhit.
  destruct (getHit world r lit_0_001 FLT_MAX) as [[index hit] | ]; [ | reflexivity].
  destruct (getObject world index) as [obj | ]; [ | reflexivity].
  cbv zeta. rewrite <- Hem, <- Hsc.
  destruct (Z_lt_dec n maxBounceDepth) as [Hlt | Hge]; [ | reflexivity].
  destruct (scatter (getMaterial obj) r hit g) as [[[a s] | ] g']; [ | reflexivity].
  rewrite (IH (bounces_left (n + 1))) with (n := n + 1); [reflexivity | | reflexivity].
  subst k. unfold bounces_left, maxBounceDepth in *. lia.
Qed.
End IntegratorReads.

(** ** The sphere and the scan, on any scalars *)

Section SceneFacts.
Context {F : Type} `{Scalar F}.
Variable Rng : Type.
Implicit Types (s : Sphere F Rng) (r : Ray F) (h : Hit F).

Lemma within_bounds tMin tMax t :
  within tMin tMax t = true <-> fltb tMin t = true /\ fltb t tMax = true.
Proof. unfold within. apply andb_true_iff. Qed.

(** An accepted intersection is one of the two roots, inside the interval. *)
Lemma Sphere_hit_some s r tMin tMax h :
  Sphere_hit s r tMin tMax = Some h ->
  fltb (discriminant s r) f0 = false
  /\ within tMin tMax (hit_t h) = true
  /\ ((h = hit_at s r (root_small s r))
      \/ (within tMin tMax (root_small s r) = false /\ h = hit_at s r (root_large s r))).
Proof.
  unfold Sphere_hit.
  destruct (fltb (discriminant s r) f0); [discriminate | ].
  destruct (within tMin tMax (root_small s r)) eqn:H1.
  - intros [= <-]. cbn. auto.
  - destruct (within tMin tMax (root_large s r)) eqn:H2; [ | discriminate].
    intros [= <-]. cbn. auto.
Qed.

Lemma Sphere_hit_none s r tMin tMax :
  Sphere_hit s r tMin tMax = None ->
  fltb (discriminant s r) f0 = true
  \/ (within tMin tMax (root_small s r) = false /\ within tMin tMax (root_large s r) = false).
Proof.
  unfold Sphere_hit.
  destruct (fltb (discriminant s r) f0); [auto | ].
  destruct (within tMin tMax (root_small s r)); [discriminate | ].
  destruct (within tMin tMax (root_large s r)); [discriminate | auto].
Qed.

(** What the scan returns is the running best or the hit of a primitive at
    the position returned, beyond [tMin]. *)
Lemma sweep_some (objs : list (Sphere F Rng)) r tMin :
  forall index closest best k h,
    sweep objs index r tMin closest best = Some (k, h) ->
    best = Some (k, h)
    \/ (exists s c, (index <= k)%nat /\ nth_error objs (k - index) = Some s
                    /\ Sphere_hit s r tMin c = Some h).
Proof.
  induction objs as [ | s rest IH]; intros index closest best k h; cbn [sweep].
  - auto.
  - destruct (Sphere_hit s r tMin closest) as [h0 | ] eqn:Hs; intros Hsw;
      apply IH in Hsw; destruct Hsw as [Hbest | (s' & c & Hle & Hnth & Hhit)].
    + injection Hbest as <- <-. right. exists s, closest.
      rewrite Nat.sub_diag. auto.
    + right. exists s', c. split; [lia | ]. split; [ | exact Hhit].
      replace (k - index)%nat with (S (k - S index)) by lia. exact Hnth.
    + auto.
    + right. exists s', c. split; [lia | ]. split; [ | exact Hhit].
      replace (k - index)%nat with (S (k - S index)) by lia. exact Hnth.
Qed.

(** The index the query returns names an object, and the hit lies beyond
    the lower bound of the query. *)
Lemma getHit_index_and_bound (world : ObjCollection F Rng) r tMin tMax k h :
  ObjCollection_getHit world r tMin tMax = Some (k, h) ->
  (exists s, ObjCollection_getObject world k = Some s) /\ fltb tMin (hit_t h) = true.
Proof.
  unfold ObjCollection_getHit, ObjCollection_getObject. intros Hsw.
  apply sweep_some in Hsw. destruct Hsw as [Hbest | (s & c & _ & Hnth & Hhit)].
  - discriminate.
  - rewrite Nat.sub_0_r in Hnth. split; [eauto | ].
    apply Sphere_hit_some in Hhit. destruct Hhit as (_ & Hin & _).
    apply within_bounds in Hin. tauto.
Qed.
(** On a collection of spheres [color] always returns a radiance: the
    index it looks up is the one the scan returned. *)
Lemma trace_returns (world : ObjCollection F Rng) r n g :
  exists c g', trace world r n g = Some (c, g').
Proof.
  remember (bounces_left n) as k eqn:Hk. revert r n g Hk.
  induction k as [k IH] using lt_wf_ind. intros r n g Hk.
  unfold trace. rewrite color_equation_1.
  destruct (ObjCollection_getHit world r lit_0_001 FLT_MAX) as [[index hit] | ] eqn:Hq;
    [ | eauto].
  destruct (getHit_index_and_bound _ _ _ _ Hq) as [[s Hs] _]. rewrite Hs. cbv zeta.
  destruct (Z_lt_dec n maxBounceDepth) as [Hlt | Hge]; [ | eauto].
  destruct (scatter (sphere_material s) r hit g) as [[[a sc] | ] g1]; [ | eauto].
  destruct (IH (bounces_left (n + 1))) with (r := sc) (n := n + 1) (g := g1)
    as (c & g2 & Hrec); [ | reflexivity | ].
  - subst k. unfold bounces_left, maxBounceDepth in *. lia.
  - unfold trace in Hrec. rewrite Hrec. eauto.
Qed.
End SceneFacts.

(** ** The nearest hit *)

Section NearestHit.
Context {F : Type} `{ScalarOrder F}.
Variable Rng : Type.
Implicit Types (s : Sphere F Rng) (r : Ray F) (h : Hit F).

Lemma below_trans tMax closest t :
  below tMax closest -> fltb t closest = true -> fltb t tMax = true.
Proof. intros [-> | Hc] Ht; eauto using flt_trans. Qed.

(** Narrowing the interval keeps an accepted intersection what it is, when
    the roots are in order. *)
Lemma Sphere_hit_narrowed s r tMin tMax closest h :
  fltb (root_large s r) (root_small s r) = false ->
  below tMax closest ->
  Sphere_hit s r tMin closest = Some h ->
  Sphere_hit s r tMin tMax = Some h.
Proof.
  intros Hord Hc Hn. apply Sphere_hit_some in Hn.
  destruct Hn as (Hd & Hin & Hroot). unfold Sphere_hit. rewrite Hd.
  apply within_bounds in Hin. destruct Hin as [Hlo Hhi].
  destruct Hroot as [-> | [Hout ->]]; cbn [hit_t hit_at] in Hlo, Hhi.
  - replace (within tMin tMax (root_small s r)) with true; [reflexivity | ].
    symmetry. apply within_bounds. eauto using below_trans.
  - destruct (within tMin tMax (root_small s r)) eqn:Hfull.
    + exfalso. apply within_bounds in Hfull. destruct Hfull as [Hlo1 Hhi1].
      destruct (flt_between _ _ _ _ Hlo1 Hhi) as [Hlt | Hlt].
      * congruence.
      * assert (within tMin closest (root_small s r) = true) as Hin
          by (apply within_bounds; auto).
        congruence.
    + replace (within tMin tMax (root_large s r)) with true; [reflexivity | ].
      symmetry. apply within_bounds. eauto using below_trans.
Qed.

(** A primitive rejected on the narrowed interval has no accepted
    intersection below [closest]. *)
Lemma Sphere_hit_rejected s r tMin tMax closest h :
  Sphere_hit s r tMin closest = None ->
  Sphere_hit s r tMin tMax = Some h ->
  fltb (hit_t h) closest = false.
Proof.
  intros Hn Hf. apply Sphere_hit_some in Hf.
  destruct Hf as (Hd & Hin & Hroot).
  apply within_bounds in Hin. destruct Hin as [Hlo Hhi].
  apply Sphere_hit_none in Hn. destruct Hn as [Hneg | [Hs Hl]]; [congruence | ].
  destruct (fltb (hit_t h) closest) eqn:Hlt; [exfalso | reflexivity].
  destruct Hroot as [-> | [Hout ->]]; cbn [hit_t hit_at] in Hlo, Hhi, Hlt.
  - assert (within tMin closest (root_small s r) = true) as Hin
      by (apply within_bounds; auto).
    congruence.
  - assert (within tMin closest (root_large s r) = true) as Hin
      by (apply within_bounds; auto).
    congruence.
Qed.

Lemma scan_state_below tMin tMax closest best :
  scan_state tMin tMax closest best -> below tMax closest.
Proof. destruct best as [[k h] | ]; cbn; [intros (_ & _ & Hc); right | left]; assumption. Qed.

Lemma scan_state_accept s r tMin tMax closest best index h :
  scan_state tMin tMax closest best ->
  Sphere_hit s r tMin closest = Some h ->
  scan_state tMin tMax (hit_t h) (Some (index, h)).
Proof.
  intros Hst Hs. apply Sphere_hit_some in Hs. destruct Hs as (_ & Hin & _).
  apply within_bounds in Hin. destruct Hin as [Hlo Hhi].
  cbn. split; [reflexivity | ]. split; [exact Hlo | ].
  eapply below_trans; [eapply scan_state_below | ]; eassumption.
Qed.

Lemma sweep_none (objs : list (Sphere F Rng)) r tMin tMax :
  forall index closest best,
    scan_state tMin tMax closest best ->
    (sweep objs index r tMin closest best = None
     <-> best = None
         /\ forall j s, nth_error objs j = Some s -> Sphere_hit s r tMin tMax = None).
Proof.
  induction objs as [ | s rest IH]; intros index closest best Hst; cbn [sweep].
  - split; [intros ->; split; [reflexivity | ] | tauto].
    intros [ | j] s'; discriminate.
  - destruct (Sphere_hit s r tMin closest) as [h0 | ] eqn:Hs.
    + rewrite IH by (eapply scan_state_accept; eassumption).
      split; [intros [? _]; discriminate | ].
      intros [-> Hall]. cbn in Hst. subst closest.
      rewrite (Hall 0%nat s eq_refl) in Hs. discriminate.
    + rewrite IH by assumption.
      split; intros [-> Hall]; (split; [reflexivity | ]).
      * cbn in Hst. subst closest.
        intros [ | j] s' Hj; [injection Hj as <-; exact Hs | ].
        exact (Hall j s' Hj).
      * intros j s' Hj. exact (Hall (S j) s' Hj).
Qed.

Lemma sweep_nearest_in_order (objs : list (Sphere F Rng)) r tMin tMax :
  roots_in_order objs r = true ->
  forall index closest best k h,
    scan_state tMin tMax closest best ->
    sweep objs index r tMin closest best = Some (k, h) ->
    (best = Some (k, h)
     \/ exists s, (index <= k)%nat /\ nth_error objs (k - index) = Some s
                  /\ Sphere_hit s r tMin tMax = Some h)
    /\ fltb closest (hit_t h) = false
    /\ forall j s h', nth_error objs j = Some s ->
                      Sphere_hit s r tMin tMax = Some h' ->
                      fltb (hit_t h') (hit_t h) = false.
Proof.
  induction objs as [ | s rest IH]; cbn [roots_in_order forallb sweep];
    intros Hord index closest best k h Hst.
  - intros ->. destruct Hst as (-> & _ & _). split; [auto | ].
    split; [apply flt_irrefl | ]. intros [ | j] s'; discriminate.
  - apply andb_true_iff in Hord. destruct Hord as [Hs_ord Hrest].
    apply negb_true_iff in Hs_ord. specialize (IH Hrest).
    pose proof (scan_state_below _ _ _ _ Hst) as Hc.
    destruct (Sphere_hit s r tMin closest) as [h0 | ] eqn:Hs; intros Hsw.
    + assert (Sphere_hit s r tMin tMax = Some h0) as Hfull
        by (eapply Sphere_hit_narrowed; eassumption).
      assert (scan_state tMin tMax (hit_t h0) (Some (index, h0))) as Hst'
        by (eapply scan_state_accept; eassumption).
      apply Sphere_hit_some in Hs. destruct Hs as (_ & Hin & _).
      apply within_bounds in Hin. destruct Hin as [Hlo Hhi].
      apply IH in Hsw; [ | exact Hst'].
      destruct Hsw as (Hwho & Hle & Hmin). repeat split.
      * right. destruct Hwho as [[= <- <-] | (s' & Hik & Hnth & Hhit)].
        -- exists s. rewrite Nat.sub_diag. auto.
        -- exists s'. split; [lia | ]. split; [ | exact Hhit].
           replace (k - index)%nat with (S (k - S index)) by lia. exact Hnth.
      * destruct (fltb closest (hit_t h)) eqn:Hlt; [ | reflexivity].
        rewrite (flt_trans _ _ _ Hhi Hlt) in Hle. discriminate.
      * intros [ | j] s' h' Hj Hh'; [ | exact (Hmin j s' h' Hj Hh')].
        injection Hj as <-. rewrite Hfull in Hh'. injection Hh' as <-. exact Hle.
    + apply IH in Hsw; [ | exact Hst].
      destruct Hsw as (Hwho & Hle & Hmin). repeat split.
      * destruct Hwho as [Hb | (s' & Hik & Hnth & Hhit)]; [auto | right].
        exists s'. split; [lia | ]. split; [ | exact Hhit].
        replace (k - index)%nat with (S (k - S index)) by lia. exact Hnth.
      * exact Hle.
      * intros [ | j] s' h' Hj Hh'; [ | exact (Hmin j s' h' Hj Hh')].
        injection Hj as <-.
        assert (fltb (hit_t h') closest = false) as Hrej
          by (eapply Sphere_hit_rejected; eassumption).
        destruct (fltb (hit_t h') (hit_t h)) eqn:Hlt; [ | reflexivity].
        exfalso.
        pose proof Hh' as Hin'. apply Sphere_hit_some in Hin'.
        destruct Hin' as (_ & Hin' & _). apply within_bounds in Hin'.
        destruct Hin' as [Hlo' Hhi'].
        destruct best as [[kb hb] | ]; cbn in Hst.
        -- destruct Hst as (_ & Hlo & _).
           destruct (flt_between _ _ _ _ Hlo Hlt); congruence.
        -- subst closest. congruence.
Qed.

(** The nearest-hit query on any collection whose roots are in order on
    the ray. *)
Lemma getHit_nearest_roots_in_order (world : ObjCollection F Rng) r tMin tMax :
  roots_in_order world r = true ->
  (ObjCollection_getHit world r tMin tMax = None
   <-> forall j s, nth_error world j = Some s -> Sphere_hit s r tMin tMax = None)
  /\ (forall k h,
        ObjCollection_getHit world r tMin tMax = Some (k, h) ->
        (exists s, nth_error world k = Some s /\ Sphere_hit s r tMin tMax = Some h)
        /\ forall j s h', nth_error world j = Some s ->
                          Sphere_hit s r tMin tMax = Some h' ->
                          fltb (hit_t h') (hit_t h) = false).
Proof.
  intros Hord.
  assert (scan_state tMin tMax tMax None) as Hst by reflexivity.
  unfold ObjCollection_getHit. split.
  - rewrite (@sweep_none world r tMin tMax 0%nat tMax None Hst). tauto.
  - intros k h Hsw.
    apply (@sweep_nearest_in_order world r tMin tMax Hord 0%nat tMax None k h Hst) in Hsw.
    destruct Hsw as ([Hb | (s & _ & Hnth & Hhit)] & _ & Hmin); [discriminate | ].
    rewrite Nat.sub_0_r in Hnth. eauto.
Qed.

(** The hit the scan ends with is the running best, or one that a later
    primitive had accepted on an interval narrowed below [closest]; no
    primitive has an accepted intersection of the query nearer than it. *)
Lemma sweep_nearest (objs : list (Sphere F Rng)) r tMin tMax :
  forall index closest best k h,
    scan_state tMin tMax closest best ->
    sweep objs index r tMin closest best = Some (k, h) ->
    (best = Some (k, h)
     \/ exists s closest',
          (index <= k)%nat /\ nth_error objs (k - index) = Some s
          /\ below tMax closest'
          /\ Sphere_hit s r tMin closest' = Some h
          /\ fltb (hit_t h) closest = true)
    /\ forall j s h', nth_error objs j = Some s ->
                      Sphere_hit s r tMin tMax = Some h' ->
                      fltb (hit_t h') (hit_t h) = false.
Proof.
  induction objs as [ | s rest IH]; cbn [sweep]; intros index closest best k h Hst.
  - intros ->. split; [auto | ]. intros [ | j] s'; discriminate.
  - pose proof (scan_state_below _ _ _ _ Hst) as Hc.
    destruct (Sphere_hit s r tMin closest) as [h0 | ] eqn:Hs; intros Hsw.
    + assert (scan_state tMin tMax (hit_t h0) (Some (index, h0))) as Hst'
        by (eapply scan_state_accept; eassumption).
      pose proof Hs as Hin0. apply Sphere_hit_some in Hin0.
      destruct Hin0 as (_ & Hin0 & Hroot0).
      pose proof Hin0 as Hbounds. apply within_bounds in Hbounds.
      destruct Hbounds as [Hlo Hhi].
      apply IH in Hsw; [ | exact Hst']. destruct Hsw as (Hwho & Hmin).
      (* the hit returned is [h0], or lies below it *)
      assert (fltb (hit_t h) closest = true
              /\ (h = h0 \/ fltb (hit_t h) (hit_t h0) = true)) as [Hbelow Hle].
      { destruct Hwho as [[= <- <-] | (s' & c' & _ & _ & _ & _ & Hlt)].
        - auto.
        - split; [eapply flt_trans; eassumption | auto]. }
      split.
      * right. destruct Hwho as [[= <- <-] | (s' & c' & Hik & Hnth & Hc' & Hhit & Hlt)].
        -- exists s, closest. rewrite Nat.sub_diag. auto.
        -- exists s', c'. split; [lia | ]. split; [ | auto].
           replace (k - index)%nat with (S (k - S index)) by lia. exact Hnth.
      * intros [ | j] s' h' Hj Hh'; [ | exact (Hmin j s' h' Hj Hh')].
        injection Hj as <-.
        destruct (fltb (hit_t h') (hit_t h)) eqn:Hlt; [exfalso | reflexivity].
        (* [h'] lies in the narrowed interval, so the test took it there *)
        apply Sphere_hit_some in Hh'. destruct Hh' as (_ & Hin' & Hroot').
        apply within_bounds in Hin'. destruct Hin' as [Hlo' Hhi'].
        assert (within tMin closest (hit_t h') = true) as Hnarrow
          by (apply within_bounds; split; [exact Hlo' | eapply flt_trans; eassumption]).
        assert (h0 = h') as ->.
        { destruct Hroot' as [-> | [Hout' ->]]; cbn [hit_t hit_at] in Hnarrow.
          - destruct Hroot0 as [-> | [Hout0 _]]; [reflexivity | congruence].
          - destruct Hroot0 as [-> | [_ ->]]; [ | reflexivity].
            exfalso. cbn [hit_t hit_at] in Hlo, Hhi.
            assert (within tMin tMax (root_small s r) = true)
              by (apply within_bounds; eauto using below_trans).
            congruence. }
        destruct Hle as [-> | Hle].
        -- rewrite flt_irrefl in Hlt. discriminate.
        -- pose proof (flt_trans _ _ _ Hlt Hle) as Habs.
           rewrite flt_irrefl in Habs. discriminate.
    + apply IH in Hsw; [ | exact Hst]. destruct Hsw as (Hwho & Hmin). split.
      * destruct Hwho as [Hb | (s' & c' & Hik & Hnth & Hrest)]; [auto | right].
        exists s', c'. split; [lia | ]. split; [ | exact Hrest].
        replace (k - index)%nat with (S (k - S index)) by lia. exact Hnth.
      * intros [ | j] s' h' Hj Hh'; [ | exact (Hmin j s' h' Hj Hh')].
        injection Hj as <-.
        assert (fltb (hit_t h') closest = false) as Hrej
          by (eapply Sphere_hit_rejected; eassumption).
        destruct (fltb (hit_t h') (hit_t h)) eqn:Hlt; [exfalso | reflexivity].
        destruct Hwho as [-> | (s' & c' & _ & _ & _ & _ & Hbelow)].
        -- cbn in Hst. destruct Hst as (-> & _). congruence.
        -- rewrite (flt_trans _ _ _ Hlt Hbelow) in Hrej. discriminate.
Qed.

End NearestHit.

(** ** The comparison of floats is a strict order *)

Lemma SFltb_key_lt x y : SFltb x y = true <-> key_lt x y.
Proof.
  unfold SFltb, key_lt.
  destruct x as [sx | [ | ] | | [ | ] mx ex]; destruct y as [sy | [ | ] | | [ | ] my ey];
    cbn [SFcompare order_key]; try destruct sx; try destruct sy;
    try (split; [discriminate | lia]); try (split; [lia | reflexivity]);
    try (split; [discriminate | tauto]);
    change (Pos.compare_cont Eq mx my) with (Z.pos mx ?= Z.pos my);
    destruct (Z.compare_spec ex ey); destruct (Z.compare_spec (Z.pos mx) (Z.pos my));
    cbn; split; try discriminate; try reflexivity; lia.
Qed.

Ltac by_order_key :=
  rewrite ?SFltb_key_lt; unfold key_lt;
  repeat match goal with
    | |- context [order_key ?x] => destruct (order_key x) as [[[? ?] ?] | ]
    end;
  cbn; lia.

Lemma ieee_order_laws (prec emax : Z) :
  @ScalarOrder IEEE.float (IEEE.scalar prec emax).
Proof.
  constructor; cbn [fltb IEEE.scalar].
  - intros x. apply not_true_iff_false. by_order_key.
  - intros x y z. by_order_key.
  - intros w x y z. by_order_key.
Qed.

#[export] Instance binary32_order_laws : ScalarOrder Binary32.float :=
  ieee_order_laws Binary32.prec Binary32.emax.

(** ** Signs in binary floating-point arithmetic *)

Section Signs.
Variables prec emax : Z.

(** Rounding keeps the sign it is given. *)
Lemma binary_round_aux_sign sx mx ex lx :
  match binary_round_aux prec emax sx mx ex lx with
  | S754_zero s | S754_infinity s | S754_finite s _ _ => s = sx
  | S754_nan => True
  end.
Proof.
  unfold binary_round_aux.
  destruct (shr_fexp prec emax mx ex lx) as [mrs' e'].
  destruct (shr_fexp prec emax _ e' loc_Exact) as [mrs'' e''].
  destruct (shr_m mrs''); [reflexivity | | exact I].
  destruct (Z.leb e'' (emax - prec)); reflexivity.
Qed.

Lemma binary_round_sign sx mx ex :
  match binary_round prec emax sx mx ex with
  | S754_zero s | S754_infinity s | S754_finite s _ _ => s = sx
  | S754_nan => True
  end.
Proof.
  unfold binary_round.
  destruct (shl_align mx ex _) as [mz ez]. apply binary_round_aux_sign.
Qed.


Lemma unsigned_not_lt_zero x : unsigned x = negb (SFltb x (S754_zero false)).
Proof. destruct x as [s | s | | s m e]; try destruct s; reflexivity. Qed.

Lemma SFmul_unsigned x y :
  unsigned x = true -> unsigned y = true -> unsigned (SFmul prec emax x y) = true.
Proof.
  destruct x as [sx | [ | ] | | [ | ] mx ex]; destruct y as [sy | [ | ] | | [ | ] my ey];
    cbn; try discriminate; try reflexivity; intros _ _.
  pose proof (binary_round_aux_sign false (Z.pos (mx * my)) (ex + ey) loc_Exact) as Hs.
  destruct (binary_round_aux _ _ _ _ _ _); subst; reflexivity.
Qed.

Lemma SFadd_unsigned x y :
  unsigned x = true -> unsigned y = true -> unsigned (SFadd prec emax x y) = true.
Proof.
  destruct x as [[ | ] | [ | ] | | [ | ] mx ex]; destruct y as [[ | ] | [ | ] | | [ | ] my ey];
    cbn - [Z.min shl_align]; try discriminate; try reflexivity; intros _ _.
  pose proof (binary_round_sign false
                (fst (shl_align mx ex (Z.min ex ey)) + fst (shl_align my ey (Z.min ex ey)))
                (Z.min ex ey)) as Hs.
  destruct (binary_round _ _ _ _ _); subst; reflexivity.
Qed.
Lemma shr_1_nonneg mrs : 0 <= shr_m mrs -> 0 <= shr_m (shr_1 mrs).
Proof.
  destruct mrs as [m r s]. cbn. destruct m as [ | [p | p | ] | p]; cbn; lia.
Qed.

Lemma iter_shr_1_nonneg p : forall mrs, 0 <= shr_m mrs -> 0 <= shr_m (iter_pos shr_1 p mrs).
Proof.
  induction p as [p IH | p IH | ]; intros mrs Hm; cbn.
  - apply IH, IH, shr_1_nonneg, Hm.
  - apply IH, IH, Hm.
  - apply shr_1_nonneg, Hm.
Qed.

Lemma shr_fexp_nonneg m e l : 0 <= m -> 0 <= shr_m (fst (shr_fexp prec emax m e l)).
Proof.
  intros Hm. unfold shr_fexp, shr.
  assert (0 <= shr_m (shr_record_of_loc m l)) as H0
    by (destruct l as [ | [ | | ]]; exact Hm).
  destruct (fexp prec emax (Zdigits2 m + e) - e); cbn [fst]; auto using iter_shr_1_nonneg.
Qed.

Lemma round_nearest_even_nonneg m l : 0 <= m -> 0 <= round_nearest_even m l.
Proof.
  intros Hm. destruct l as [ | [ | | ]]; cbn; try lia.
  destruct (Z.even m); lia.
Qed.

(** Rounding a value that is not negative gives a number. *)
Lemma binary_round_aux_number sx mx ex lx :
  0 <= mx -> binary_round_aux prec emax sx mx ex lx <> S754_nan.
Proof.
  intros Hm. unfold binary_round_aux.
  pose proof (@shr_fexp_nonneg mx ex lx Hm) as H1.
  destruct (shr_fexp prec emax mx ex lx) as [mrs' e']. cbn [fst] in H1.
  pose proof (@shr_fexp_nonneg _ e' loc_Exact
                (@round_nearest_even_nonneg _ (loc_of_shr_record mrs') H1)) as H2.
  destruct (shr_fexp prec emax _ e' loc_Exact) as [mrs'' e'']. cbn [fst] in H2.
  destruct (shr_m mrs''); [discriminate | | lia].
  destruct (Z.leb e'' (emax - prec)); discriminate.
Qed.

Lemma binary_round_number sx mx ex : binary_round prec emax sx mx ex <> S754_nan.
Proof.
  unfold binary_round. destruct (shl_align mx ex _) as [mz ez].
  apply binary_round_aux_number. lia.
Qed.

(** A sign bit that is clear on a number: not negative, or plus infinity. *)
Lemma unsigned_number x :
  unsigned x = true -> x <> S754_nan -> IEEE.nonneg_or_inf x = true.
Proof. destruct x; cbn; congruence. Qed.

Lemma SFmul_positive_nonneg a c :
  IEEE.positive_real a = true -> IEEE.nonneg_or_inf c = true ->
  IEEE.nonneg_or_inf (SFmul prec emax a c) = true.
Proof.
  destruct a as [ | | | [ | ] ma ea]; try discriminate.
  destruct c as [sc | [ | ] | | [ | ] mc ec]; try discriminate; intros _ _;
    try reflexivity.
  apply unsigned_number.
  - now apply SFmul_unsigned.
  - cbn. apply binary_round_aux_number. lia.
Qed.

Lemma SFadd_nonneg_number e y :
  IEEE.nonneg_real e = true -> IEEE.nonneg_or_inf y = true ->
  IEEE.nonneg_or_inf (SFadd prec emax e y) = true.
Proof.
  intros He Hy. apply unsigned_number.
  - apply SFadd_unsigned; [destruct e | destruct y]; cbn in *; congruence.
  - destruct e as [[ | ] | | | [ | ] me ee]; try discriminate;
      destruct y as [[ | ] | [ | ] | | [ | ] my ey]; try discriminate;
      cbn - [Z.min shl_align]; try discriminate.
    apply binary_round_number.
Qed.
End Signs.

(** ** Sign of the radiance, in any binary format *)

Section Radiance.
Variables prec emax : Z.
Let format : Scalar IEEE.float := IEEE.scalar prec emax.
#[local] Existing Instance format | 0.
Variable Rng : Type.
Variables World Object : Type.
Variable getHit : World -> Ray IEEE.float -> IEEE.float -> IEEE.float
                  -> option (nat * Hit IEEE.float).
Variable getObject : World -> nat -> option Object.
Variable getMaterial : Object -> Material IEEE.float Rng.

Lemma nonneg_real_unsigned x : IEEE.nonneg_real x = true -> unsigned x = true.
Proof. destruct x; cbn; congruence. Qed.

Lemma vall_true (P : IEEE.float -> bool) (a : Vec3 IEEE.float) :
  vall P a = true <-> P (vx a) = true /\ P (vy a) = true /\ P (vz a) = true.
Proof. unfold vall. rewrite !andb_true_iff. tauto. Qed.

Lemma vall_nonneg_real_unsigned a :
  vall IEEE.nonneg_real a = true -> vall unsigned a = true.
Proof. rewrite !vall_true. intuition auto using nonneg_real_unsigned. Qed.

Lemma vadd_vmul_unsigned (e a c : Vec3 IEEE.float) :
  vall unsigned e = true -> vall unsigned a = true -> vall unsigned c = true ->
  vall unsigned (vadd e (vmul a c)) = true.
Proof.
  rewrite !vall_true. cbn.
  intros (? & ? & ?) (? & ? & ?) (? & ? & ?).
  repeat split; apply SFadd_unsigned; try apply SFmul_unsigned; assumption.
Qed.

Lemma color_unsigned world :
  world_contract getObject getMaterial world ->
  forall r n g c g',
    color getHit getObject getMaterial world r n g = Some (c, g') ->
    vall unsigned c = true.
Proof.
  intros Hw r n g.
  remember (bounces_left n) as k eqn:Hk. revert r n g Hk.
  induction k as [k IH] using lt_wf_ind. intros r n g Hk c g'.
  rewrite color_equation_1.
  destruct (getHit world r lit_0_001 FLT_MAX) as [[index hit] | ];
    [ | intros [= <- _]; reflexivity].
  destruct (getObject world index) as [obj | ] eqn:Hobj; [ | discriminate].
  destruct (Hw index obj Hobj) as [Hem Hsc]. cbv zeta.
  pose proof (vall_nonneg_real_unsigned _ (Hem f0 f0 vzero)) as He.
  destruct (Z_lt_dec n maxBounceDepth) as [Hlt | Hge]; [ | intros [= <- _]; exact He].
  destruct (scatter (getMaterial obj) r hit g) as [[[a s] | ] g1] eqn:Hs;
    [ | intros [= <- _]; exact He].
  destruct (color getHit getObject getMaterial world s (n + 1) g1) as [[c1 g2] | ] eqn:Hrec;
    [ | discriminate].
  intros [= <- _]. apply vadd_vmul_unsigned.
  - exact He.
  - apply vall_nonneg_real_unsigned. eapply Hsc. exact Hs.
  - eapply (IH (bounces_left (n + 1))); [ | reflexivity | exact Hrec].
    subst k. unfold bounces_left, maxBounceDepth in *. lia.
Qed.

Lemma vadd_vmul_number (e a c : Vec3 IEEE.float) :
  vall IEEE.nonneg_real e = true -> vall IEEE.positive_real a = true ->
  vall IEEE.nonneg_or_inf c = true ->
  vall IEEE.nonneg_or_inf (vadd e (vmul a c)) = true.
Proof.
  rewrite !vall_true. cbn.
  intros (? & ? & ?) (? & ? & ?) (? & ? & ?).
  repeat split; apply SFadd_nonneg_number; try apply SFmul_positive_nonneg; assumption.
Qed.

Lemma vall_nonneg_real_number a :
  vall IEEE.nonneg_real a = true -> vall IEEE.nonneg_or_inf a = true.
Proof.
  rewrite !vall_true.
  assert (forall x, IEEE.nonneg_real x = true -> IEEE.nonneg_or_inf x = true)
    by (intros x; destruct x; cbn; congruence).
  intuition auto.
Qed.

Lemma color_number world :
  world_contract getObject getMaterial world ->
  attenuation_positive getObject getMaterial world ->
  forall r n g c g',
    color getHit getObject getMaterial world r n g = Some (c, g') ->
    vall IEEE.nonneg_or_inf c = true.
Proof.
  intros Hw Hpos r n g.
  remember (bounces_left n) as k eqn:Hk. revert r n g Hk.
  induction k as [k IH] using lt_wf_ind. intros r n g Hk c g'.
  rewrite color_equation_1.
  destruct (getHit world r lit_0_001 FLT_MAX) as [[index hit] | ];
    [ | intros [= <- _]; reflexivity].
  destruct (getObject world index) as [obj | ] eqn:Hobj; [ | discriminate].
  destruct (Hw index obj Hobj) as [Hem _]. cbv zeta.
  pose proof (Hem f0 f0 vzero) as He.
  destruct (Z_lt_dec n maxBounceDepth) as [Hlt | Hge];
    [ | intros [= <- _]; now apply vall_nonneg_real_number].
  destruct (scatter (getMaterial obj) r hit g) as [[[a s] | ] g1] eqn:Hs;
    [ | intros [= <- _]; now apply vall_nonneg_real_number].
  destruct (color getHit getObject getMaterial world s (n + 1) g1) as [[c1 g2] | ] eqn:Hrec;
    [ | discriminate].
  intros [= <- _]. apply vadd_vmul_number.
  - exact He.
  - eapply Hpos; eassumption.
  - eapply (IH (bounces_left (n + 1))); [ | reflexivity | exact Hrec].
    subst k. unfold bounces_left, maxBounceDepth in *. lia.
Qed.

(** C6, amended: under the material contracts no component of the radiance
    that [color] returns is below zero: a component is a non-negative
    number, plus infinity or a NaN.  When no scatter attenuates a component
    to zero it is never a NaN: a non-negative number or plus infinity. *)
Theorem color_never_negative world r n g c g' :
  world_contract getObject getMaterial world ->
  color getHit getObject getMaterial world r n g = Some (c, g') ->
  vall IEEE.not_negative c = true
  /\ (attenuation_positive getObject getMaterial world ->
      vall IEEE.nonneg_or_inf c = true).
Proof.
  intros Hw Hc. split.
  - pose proof (color_unsigned Hw _ _ _ Hc) as Hu.
    revert Hu. rewrite !vall_true. unfold IEEE.not_negative.
    rewrite <- !unsigned_not_lt_zero. tauto.
  - intros Hpos. eapply color_number; eassumption.
Qed.
End Radiance.

(** ** The constants of the queries *)

(** The literal 0.001 is the quotient of 1 by 1000 rounded to binary32, and
    [FLT_MAX] is [(2^24 - 1) * 2^104]. *)
Example binary32_constants :
  lit_0_001 = fdiv (Scenes.num 1) (Scenes.num 1000)
  /\ FLT_MAX = S754_finite false 16777215 104
  /\ fltb lit_0_001 FLT_MAX = true.
Proof. repeat split; vm_compute; reflexivity. Qed.

(** ** The sphere intersection test *)

(** C4: the intersection test, written out on the components of the ray
    and the sphere.  With [oc = origin - center], the quadratic is
    [a t^2 + b t + c] for [a = D.D], [b = 2 oc.D], [c = oc.oc - r^2]; the
    test reports no hit when [b^2 - 4ac < 0]; otherwise it accepts the root
    with the minus sign if it lies strictly inside the interval, else the
    root with the plus sign if that does, else nothing; an accepted hit
    carries the distance [t], the point [origin + t D] and the normal
    [(point - center) / radius].

    On binary32: the unit sphere at the origin is hit from [(0,0,5)] along
    [(0,0,-1)] at [t = 4], point [(0,0,1)], normal [(0,0,1)]; along
    [(0,0,-2)] at [t = 2]; a sphere of radius 2 about [(1,2,3)] from
    [(1,2,10)] along [(0,0,-2)] at [t = 5/2], point [(1,2,5)]; a sphere of
    radius 5 about [(6,8,0)] from the origin along [(3,4,0)] at [t = 1] with
    normal [(-3/5,-4/5,0)]; from inside the unit sphere the root with the
    plus sign is taken; a lower bound of 4 excludes the root 4; a ray that
    passes the sphere, an interval that ends before the roots and a ray
    without a direction give no hit. *)
Theorem Sphere_hit_roots :
  (forall (F : Type) (SF : Scalar F) (Rng : Type)
          (s : Sphere F Rng) (r : Ray F) (tMin tMax : F),
      let O := origin r in
      let D := direction r in
      let dot3 (u v : Vec3 F) :=
        fadd (fadd (fmul (vx u) (vx v)) (fmul (vy u) (vy v))) (fmul (vz u) (vz v)) in
      let oc := mkVec3 (fsub (vx O) (vx (center s))) (fsub (vy O) (vy (center s)))
                       (fsub (vz O) (vz (center s))) in
      let a := dot3 D D in
      let b := fmul (of_int 2) (dot3 oc D) in
      let c := fsub (dot3 oc oc) (fmul (radius s) (radius s)) in
      let disc := fsub (fmul b b) (fmul (fmul (of_int 4) a) c) in
      let t1 := fdiv (fsub (fopp b) (fsqrt disc)) (fmul (of_int 2) a) in
      let t2 := fdiv (fadd (fopp b) (fsqrt disc)) (fmul (of_int 2) a) in
      let inside t := fltb tMin t && fltb t tMax in
      let accepted t :=
        let p := mkVec3 (fadd (vx O) (fmul t (vx D))) (fadd (vy O) (fmul t (vy D)))
                        (fadd (vz O) (fmul t (vz D))) in
        Some (mkHit t p
                (mkVec3 (fdiv (fsub (vx p) (vx (center s))) (radius s))
                        (fdiv (fsub (vy p) (vy (center s))) (radius s))
                        (fdiv (fsub (vz p) (vz (center s))) (radius s)))) in
      Sphere_hit s r tMin tMax
      = if fltb disc f0 then None
        else if inside t1 then accepted t1
        else if inside t2 then accepted t2
        else None)
  /\ Sphere_hit (Probes.sphere 0 0 0 1) (Probes.ray 0 0 5 0 0 (-1)) lit_0_001 FLT_MAX
     = Some (Probes.hit 4 0 0 1 0 0 1)
  /\ Sphere_hit (Probes.sphere 0 0 0 1) (Probes.ray 0 0 5 0 0 (-2)) lit_0_001 FLT_MAX
     = Some (Probes.hit 2 0 0 1 0 0 1)
  /\ Sphere_hit (Probes.sphere 1 2 3 2) (Probes.ray 1 2 10 0 0 (-2)) lit_0_001 FLT_MAX
     = Some (mkHit (Probes.ratio 5 2) (Scenes.vec 1 2 5) (Scenes.vec 0 0 1))
  /\ Sphere_hit (Probes.sphere 6 8 0 5) (Probes.ray 0 0 0 3 4 0) lit_0_001 FLT_MAX
     = Some (mkHit (Scenes.num 1) (Scenes.vec 3 4 0)
               (mkVec3 (Probes.ratio (-3) 5) (Probes.ratio (-4) 5) (Scenes.num 0)))
  /\ Sphere_hit (Probes.sphere 0 0 0 1) (Probes.ray 0 0 0 0 0 1) lit_0_001 FLT_MAX
     = Some (Probes.hit 1 0 0 1 0 0 1)
  /\ Sphere_hit (Probes.sphere 0 0 0 1) (Probes.ray 0 0 5 0 0 (-1)) (Scenes.num 4) FLT_MAX
     = Some (Probes.hit 6 0 0 (-1) 0 0 (-1))
  /\ Sphere_hit (Probes.sphere 0 0 0 1) (Probes.ray 0 5 5 0 0 (-1)) lit_0_001 FLT_MAX
     = None
  /\ Sphere_hit (Probes.sphere 0 0 0 1) (Probes.ray 0 0 5 0 0 (-1)) lit_0_001 (Scenes.num 3)
     = None
  /\ Sphere_hit (Probes.sphere 0 0 0 1) (Probes.ray 0 0 5 0 0 0) lit_0_001 FLT_MAX
     = None.
Proof.
  split; [intros; reflexivity | ].
  repeat split; vm_compute; reflexivity.
Qed.

(** The quadratic of the first example: the discriminant is 4, the roots
    are 4 and 6, and the smaller one is the one taken. *)
Lemma Sphere_hit_roots_witness :
  discriminant Scenes.unit_sphere Scenes.probe = Scenes.num 4
  /\ root_small Scenes.unit_sphere Scenes.probe = Scenes.num 4
  /\ root_large Scenes.unit_sphere Scenes.probe = Scenes.num 6
  /\ Sphere_hit Scenes.unit_sphere Scenes.probe lit_0_001 FLT_MAX
     = Some (mkHit (Scenes.num 4) (Scenes.vec 0 0 1) (Scenes.vec 0 0 1)).
Proof.
  split; [vm_compute; reflexivity | ].
  split; [vm_compute; reflexivity | ].
  split; [vm_compute; reflexivity | ].
  exact (proj1 (proj2 Sphere_hit_roots)).
Defined.

(** The points accepted in the examples lie on their spheres:
    [|point - center|^2 = r^2], exactly. *)
Example accepted_points_on_the_sphere :
  let on_sphere (s : Sphere Scenes.F Scenes.Rng) (r : Ray Scenes.F) :=
    match Sphere_hit s r lit_0_001 FLT_MAX with
    | Some h =>
        let d := vsub (hit_point h) (center s) in
        Some (dot d d) = Some (fmul (radius s) (radius s))
    | None => False
    end in
  on_sphere (Probes.sphere 0 0 0 1) (Probes.ray 0 0 5 0 0 (-1))
  /\ on_sphere (Probes.sphere 0 0 0 1) (Probes.ray 0 0 5 0 0 (-2))
  /\ on_sphere (Probes.sphere 1 2 3 2) (Probes.ray 1 2 10 0 0 (-2))
  /\ on_sphere (Probes.sphere 6 8 0 5) (Probes.ray 0 0 0 3 4 0)
  /\ on_sphere (Probes.sphere 0 0 0 1) (Probes.ray 0 0 0 0 0 1).
Proof.
  cbv zeta.
  split; [vm_compute; reflexivity | ]. split; [vm_compute; reflexivity | ].
  split; [vm_compute; reflexivity | ]. split; vm_compute; reflexivity.
Qed.

(** ** The integrator on the example scenes *)

(** The empty collection reports no hit, and the ray comes back black. *)
Lemma color_miss_is_black_witness :
  ObjCollection_getHit Scenes.empty_world Scenes.probe lit_0_001 FLT_MAX = None
  /\ trace Scenes.empty_world Scenes.probe 7 12345
     = Some (mkVec3 (S754_zero false) (S754_zero false) (S754_zero false), 12345).
Proof.
  split; [reflexivity | ].
  exact (color_miss_is_black (@ObjCollection_getHit Scenes.F binary32 Scenes.Rng)
           (@ObjCollection_getObject Scenes.F Scenes.Rng) (@sphere_material Scenes.F Scenes.Rng)
           Scenes.empty_world Scenes.probe 7 12345 eq_refl).
Defined.

(** The ray along the x axis meets the mirror of albedo [(1,2,3)], is
    scattered upwards and ends on the light: [0 + (1,2,3) * (1,1,1)]. *)
Lemma color_hit_emission_and_scatter_witness :
  trace Scenes.lit_mirror Scenes.x_ray 0 0 = Some (Scenes.vec 1 2 3, 0).
Proof.
  pose (getHit := @ObjCollection_getHit Scenes.F binary32 Scenes.Rng).
  pose (getObject := @ObjCollection_getObject Scenes.F Scenes.Rng).
  pose (getMaterial := @sphere_material Scenes.F Scenes.Rng).
  pose (obj := mkSphere (Scenes.mirror (Scenes.vec 1 2 3)) (Scenes.vec 6 (-1) 0)
                 (fsqrt (Scenes.num 2))).
  assert (getObject Scenes.lit_mirror 0%nat = Some obj) as Hobj by reflexivity.
  let q := eval vm_compute in (getHit Scenes.lit_mirror Scenes.x_ray lit_0_001 FLT_MAX) in
  match q with
  | Some (_, ?h) =>
      assert (getHit Scenes.lit_mirror Scenes.x_ray lit_0_001 FLT_MAX = Some (0%nat, h))
        as Hhit by (vm_compute; reflexivity);
      let s := eval vm_compute in (scatter (getMaterial obj) Scenes.x_ray h 0) in
      match s with
      | (Some (?a, ?sc), ?g1) =>
          assert (scatter (getMaterial obj) Scenes.x_ray h 0 = (Some (a, sc), g1))
            as Hsc by (vm_compute; reflexivity);
          let c := eval vm_compute in
                     (color getHit getObject getMaterial Scenes.lit_mirror sc (0 + 1) g1) in
          match c with
          | Some (?c1, ?g2) =>
              assert (color getHit getObject getMaterial Scenes.lit_mirror sc (0 + 1) g1
                      = Some (c1, g2)) as Hrec by (vm_compute; reflexivity);
              pose proof (proj1 (color_hit_emission_and_scatter
                                   getHit getObject getMaterial _ _ 0 0 Hhit Hobj)
                            a sc g1 c1 g2 eq_refl Hsc Hrec) as Hcolor
          end
      end
  end.
  unfold trace. fold getHit getObject getMaterial. rewrite Hcolor.
  vm_compute. reflexivity.
Defined.

(** Two facing mirrors: 26 frames are enough at depth 0, as the bound
    says. *)
Lemma color_recursion_bounded_witness :
  (Z.to_nat (25 - 0) < 26)%nat
  /\ trace_fuel 26 Scenes.mirrors Scenes.axis_ray 0 0
     = Some (trace Scenes.mirrors Scenes.axis_ray 0 0).
Proof.
  split; [vm_compute; lia | ].
  exact (proj1 (color_recursion_bounded
                  (@ObjCollection_getHit Scenes.F binary32 Scenes.Rng)
                  (@ObjCollection_getObject Scenes.F Scenes.Rng)
                  (@sphere_material Scenes.F Scenes.Rng)
                  Scenes.mirrors Scenes.axis_ray 0 0)
               26%nat ltac:(vm_compute; lia)).
Defined.

(** Between the two mirrors every bounce is taken: 25 frames are not
    enough at depth 0, so the bound on the stack is reached. *)
Example mirrors_need_every_frame :
  trace_fuel 25 Scenes.mirrors Scenes.axis_ray 0 0 = None
  /\ trace_fuel 26 Scenes.mirrors Scenes.axis_ray 0 0 = Some (Some (vzero, 0)).
Proof. split; vm_compute; reflexivity. Qed.

(** ** The nearest hit on the example scenes *)


(** On that ray the roots of both spheres evaluate in order, so the hit
    returned is the very intersection the second sphere accepts on the
    interval of the query. *)
Example overlapping_nearest_binary32 :
  roots_in_order Scenes.overlapping Scenes.probe = true
  /\ exists s,
      nth_error Scenes.overlapping 1 = Some s
      /\ Sphere_hit s Scenes.probe lit_0_001 FLT_MAX
         = Some (mkHit (Scenes.num 3) (Scenes.vec 0 0 2) (Scenes.vec 0 0 1)).
Proof.
  assert (roots_in_order Scenes.overlapping Scenes.probe = true) as Hord
    by (vm_compute; reflexivity).
  split; [exact Hord | ].
  destruct (getHit_nearest_roots_in_order Scenes.overlapping Scenes.probe
              lit_0_001 FLT_MAX Hord) as [_ Hnear].
  apply Hnear. vm_compute. reflexivity.
Qed.

(** ** Overflow: the radiance can be a NaN *)

Lemma Metal_contract (prec emax : Z) (Rng : Type)
    (sampler : Rng -> Vec3 IEEE.float * Rng)
    (albedo : Vec3 IEEE.float) (fuzz : IEEE.float) :
  vall IEEE.nonneg_real albedo = true ->
  material_contract (@Metal IEEE.float (IEEE.scalar prec emax) Rng sampler albedo fuzz).
Proof.
  intros Ha. split.
  - intros u v p. reflexivity.
  - intros r hit g a s g'. unfold Metal. cbn [scatter].
    destruct (sampler g) as [p g1].
    destruct (fltb f0 _); [intros [= <- _ _]; exact Ha | discriminate].
Qed.

Lemma DiffuseLight_contract (Rng : Type) (emitted : Vec3 IEEE.float) :
  vall IEEE.nonneg_real emitted = true ->
  material_contract (DiffuseLight Rng emitted).
Proof.
  intros He. split.
  - intros u v p. exact He.
  - intros r hit g a s g'. discriminate.
Qed.

Lemma overflow_scene_contract :
  world_contract (@ObjCollection_getObject Scenes.F Scenes.Rng)
    (@sphere_material Scenes.F Scenes.Rng) Scenes.overflow_scene.
Proof.
  intros [ | [ | [ | index]]] obj; unfold ObjCollection_getObject, Scenes.overflow_scene;
    cbn [nth_error]; try (destruct index; discriminate); intros [= <-]; cbn [sphere_material].
  - apply (@Metal_contract Binary32.prec Binary32.emax). reflexivity.
  - apply (@Metal_contract Binary32.prec Binary32.emax). reflexivity.
  - apply DiffuseLight_contract. reflexivity.
Qed.

Lemma overflow_scene_contract_in_double :
  world_contract (@ObjCollection_getObject DoubleScenes.F DoubleScenes.Rng)
    (@sphere_material DoubleScenes.F DoubleScenes.Rng) DoubleScenes.overflow_scene.
Proof.
  intros [ | [ | [ | index]]] obj;
    unfold ObjCollection_getObject, DoubleScenes.overflow_scene;
    cbn [nth_error]; try (destruct index; discriminate); intros [= <-]; cbn [sphere_material].
  - apply (@Metal_contract Binary64.prec Binary64.emax). reflexivity.
  - apply (@Metal_contract Binary64.prec Binary64.emax). reflexivity.
  - apply DiffuseLight_contract. reflexivity.
Qed.

(** C6 as stated fails: every emission and attenuation of the scene is a
    non-negative real number; the ray that leaves the second mirror carries
    [2^127], the one that leaves the first mirror [4 * 2^127], which
    overflows to plus infinity, and the black mirror turns that into
    [0 * inf], a NaN in all three components. *)
Lemma color_nan_counterexample :
  world_contract (@ObjCollection_getObject Scenes.F Scenes.Rng)
    (@sphere_material Scenes.F Scenes.Rng) Scenes.overflow_scene
  /\ trace Scenes.overflow_scene (mkRay (Scenes.vec 5 5 0) (Scenes.vec 1 0 0)) 2 0
     = Some (mkVec3 Scenes.huge Scenes.huge Scenes.huge, 0)
  /\ trace Scenes.overflow_scene (mkRay (Scenes.vec 5 0 0) (Scenes.vec 0 1 0)) 1 0
     = Some (mkVec3 IEEE.pinf IEEE.pinf IEEE.pinf, 0)
  /\ trace Scenes.overflow_scene Scenes.x_ray 0 0
     = Some (mkVec3 IEEE.nan IEEE.nan IEEE.nan, 0)
  /\ vall IEEE.nonneg_real (mkVec3 IEEE.nan IEEE.nan IEEE.nan) = false.
Proof.
  split; [exact overflow_scene_contract | ].
  repeat split; vm_compute; reflexivity.
Qed.

(** The same happens to a renderer that keeps its vectors in [double],
    with a light that emits the largest finite [double]. *)
Example overflow_in_double :
  world_contract (@ObjCollection_getObject DoubleScenes.F DoubleScenes.Rng)
    (@sphere_material DoubleScenes.F DoubleScenes.Rng) DoubleScenes.overflow_scene
  /\ DoubleScenes.trace DoubleScenes.overflow_scene
       (mkRay (DoubleScenes.vec 5 0 0) (DoubleScenes.vec 0 1 0)) 1 0
     = Some (mkVec3 IEEE.pinf IEEE.pinf IEEE.pinf, 0)
  /\ DoubleScenes.trace DoubleScenes.overflow_scene DoubleScenes.x_ray 0 0
     = Some (mkVec3 IEEE.nan IEEE.nan IEEE.nan, 0).
Proof.
  split; [exact overflow_scene_contract_in_double | ].
  split; vm_compute; reflexivity.
Qed.

(** The radiance of the same ray is still not below zero. *)
Lemma color_never_negative_witness :
  world_contract (@ObjCollection_getObject Scenes.F Scenes.Rng)
    (@sphere_material Scenes.F Scenes.Rng) Scenes.overflow_scene
  /\ trace Scenes.overflow_scene Scenes.x_ray 0 0
     = Some (mkVec3 S754_nan S754_nan S754_nan, 0)
  /\ vall IEEE.not_negative (mkVec3 S754_nan S754_nan S754_nan) = true.
Proof.
  split; [exact overflow_scene_contract | ].
  assert (trace Scenes.overflow_scene Scenes.x_ray 0 0
          = Some (mkVec3 S754_nan S754_nan S754_nan, 0)) as Hc
    by (vm_compute; reflexivity).
  split; [exact Hc | ].
  exact (proj1 (@color_never_negative Binary32.prec Binary32.emax Scenes.Rng _ _
                  (@ObjCollection_getHit Scenes.F binary32 Scenes.Rng)
                  (@ObjCollection_getObject Scenes.F Scenes.Rng)
                  (@sphere_material Scenes.F Scenes.Rng)
                  Scenes.overflow_scene Scenes.x_ray 0 0 _ _ overflow_scene_contract Hc)).
Defined.

(** ** The interval of the queries and the arguments of [emit] *)

(** C9: [color] consults the collection only on the interval from 0.001 to
    [FLT_MAX], at every depth: two collections that answer alike on that
    interval give the same radiance.  A hit the scan returns for that
    interval lies beyond 0.001, so an intersection at a distance of 0.001 or
    less is never acted upon. *)
Theorem color_queries_fixed_interval :
  (forall (F : Type) (SF : Scalar F) (Rng World Object : Type)
          (getHit getHit' : World -> Ray F -> F -> F -> option (nat * Hit F))
          (getObject : World -> nat -> option Object)
          (getMaterial : Object -> Material F Rng),
      (forall world r,
          getHit world r lit_0_001 FLT_MAX = getHit' world r lit_0_001 FLT_MAX) ->
      forall world r n g,
        color getHit getObject getMaterial world r n g
        = color getHit' getObject getMaterial world r n g)
  /\ (forall (F : Type) (SF : Scalar F) (Rng : Type)
             (world : ObjCollection F Rng) (r : Ray F) index hit,
         ObjCollection_getHit world r lit_0_001 FLT_MAX = Some (index, hit) ->
         fltb lit_0_001 (hit_t hit) = true).
Proof.
  split.
  - intros F SF Rng World Object getHit getHit' getObject getMaterial Hq world r n g.
    now apply color_ext.
  - intros F SF Rng world r index hit Hq.
    now apply getHit_index_and_bound in Hq.
Qed.

(** A collection that answers every query as if it were the one on
    [(0.001, FLT_MAX)] gives the radiance of the scan itself; the hit of the
    probe ray on the unit sphere lies at distance 4. *)
Lemma color_queries_fixed_interval_witness :
  color (fun world r _ _ =>
           @ObjCollection_getHit Scenes.F binary32 Scenes.Rng world r lit_0_001 FLT_MAX)
        (@ObjCollection_getObject Scenes.F Scenes.Rng)
        (@sphere_material Scenes.F Scenes.Rng) Scenes.lit_mirror Scenes.x_ray 0 0
  = trace Scenes.lit_mirror Scenes.x_ray 0 0
  /\ fltb lit_0_001 (Scenes.num 4) = true.
Proof.
  destruct color_queries_fixed_interval as [Hsame Hbeyond]. split.
  - symmetry.
    exact (Hsame Scenes.F binary32 Scenes.Rng _ _
             (@ObjCollection_getHit Scenes.F binary32 Scenes.Rng)
             (fun world r _ _ =>
                @ObjCollection_getHit Scenes.F binary32 Scenes.Rng world r lit_0_001 FLT_MAX)
             (@ObjCollection_getObject Scenes.F Scenes.Rng)
             (@sphere_material Scenes.F Scenes.Rng)
             (fun world r => eq_refl) Scenes.lit_mirror Scenes.x_ray 0 0).
  - assert (ObjCollection_getHit [Scenes.unit_sphere] Scenes.probe lit_0_001 FLT_MAX
            = Some (0%nat, mkHit (Scenes.num 4) (Scenes.vec 0 0 1) (Scenes.vec 0 0 1))) as Hq
      by (vm_compute; reflexivity).
    exact (Hbeyond Scenes.F binary32 Scenes.Rng _ _ _ _ Hq).
Defined.

(** A ray that leaves the surface of the unit sphere meets it again at
    distance 0: with the lower bound 0.001 that intersection is ignored,
    with a lower bound below zero it would be reported. *)
Example surface_ray_ignores_own_sphere :
  let r := mkRay (Scenes.vec 0 0 1) (Scenes.vec 0 0 1) in
  root_large Scenes.unit_sphere r = S754_zero false
  /\ Sphere_hit Scenes.unit_sphere r lit_0_001 FLT_MAX = None
  /\ trace [Scenes.unit_sphere] r 0 0 = Some (vzero, 0)
  /\ option_map (@hit_t Scenes.F) (Sphere_hit Scenes.unit_sphere r (Scenes.num (-1)) FLT_MAX)
     = Some (S754_zero false).
Proof. repeat split; vm_compute; reflexivity. Qed.

(** C10: [emit] is consulted at the surface coordinates [(0, 0)] and the
    point [(0,0,0)] only, whatever the hit: two material tables that
    scatter alike and emit alike there give the same radiance.  For two
    rays whose nearest hits carry the same material the emission term is
    therefore the same value [e]: each radiance is [e] or [e] plus an
    attenuated term, and at the cap both are [e]. *)
Theorem color_emit_ignores_hit :
  (forall (F : Type) (SF : Scalar F) (Rng World Object : Type)
          (getHit : World -> Ray F -> F -> F -> option (nat * Hit F))
          (getObject : World -> nat -> option Object)
          (getMaterial getMaterial' : Object -> Material F Rng),
      (forall obj r hit g,
          scatter (getMaterial obj) r hit g = scatter (getMaterial' obj) r hit g) ->
      (forall obj, emit (getMaterial obj) f0 f0 vzero = emit (getMaterial' obj) f0 f0 vzero) ->
      forall world r n g,
        color getHit getObject getMaterial world r n g
        = color getHit getObject getMaterial' world r n g)
  /\ (forall (F : Type) (SF : Scalar F) (Rng World Object : Type)
             (getHit : World -> Ray F -> F -> F -> option (nat * Hit F))
             (getObject : World -> nat -> option Object)
             (getMaterial : Object -> Material F Rng)
             world r1 r2 index1 hit1 obj1 index2 hit2 obj2,
         getHit world r1 lit_0_001 FLT_MAX = Some (index1, hit1) ->
         getObject world index1 = Some obj1 ->
         getHit world r2 lit_0_001 FLT_MAX = Some (index2, hit2) ->
         getObject world index2 = Some obj2 ->
         getMaterial obj1 = getMaterial obj2 ->
         let e := emit (getMaterial obj1) f0 f0 vzero in
         forall n g,
           (forall v g', color getHit getObject getMaterial world r1 n g = Some (v, g') ->
                         v = e \/ exists a c, v = vadd e (vmul a c))
           /\ (forall v g', color getHit getObject getMaterial world r2 n g = Some (v, g') ->
                            v = e \/ exists a c, v = vadd e (vmul a c))
           /\ (maxBounceDepth <= n ->
               color getHit getObject getMaterial world r1 n g = Some (e, g)
               /\ color getHit getObject getMaterial world r2 n g = Some (e, g))).
Proof.
  split.
  - intros F SF Rng World Object getHit getObject getMaterial getMaterial' Hsc Hem
      world r n g.
    now apply color_ext.
  - intros F SF Rng World Object getHit getObject getMaterial world r1 r2
      index1 hit1 obj1 index2 hit2 obj2 Hh1 Ho1 Hh2 Ho2 Hm e n g.
    assert (forall r index hit obj,
               getHit world r lit_0_001 FLT_MAX = Some (index, hit) ->
               getObject world index = Some obj ->
               getMaterial obj = getMaterial obj1 ->
               (forall v g', color getHit getObject getMaterial world r n g = Some (v, g') ->
                             v = e \/ exists a c, v = vadd e (vmul a c))
               /\ (maxBounceDepth <= n ->
                   color getHit getObject getMaterial world r n g = Some (e, g))) as Hone.
    { intros r index hit obj Hh Ho Hmat.
      rewrite (color_on_hit getHit getObject getMaterial world r n g Hh Ho).
      cbv zeta. rewrite Hmat. fold e. split.
      - intros v g'. destruct (n <? maxBounceDepth); [ | intros [= <- _]; auto].
        destruct (scatter (getMaterial obj1) r hit g) as [[[a s] | ] g1];
          [ | intros [= <- _]; auto].
        destruct (color getHit getObject getMaterial world s (n + 1) g1) as [[c g2] | ];
          [ | discriminate].
        intros [= <- _]. eauto.
      - intros Hn. apply Z.ltb_ge in Hn. now rewrite Hn. }
    destruct (Hone r1 index1 hit1 obj1 Hh1 Ho1 eq_refl) as [H1 H1cap].
    destruct (Hone r2 index2 hit2 obj2 Hh2 Ho2 (eq_sym Hm)) as [H2 H2cap].
    auto.
Qed.

(** The pattern differs at the two hit points, [(0,0,1)] and [(1,0,0)],
    yet both rays get the emission at [(0,0,0)], which is black. *)
Lemma color_emit_ignores_hit_witness :
  emit Scenes.patterned f0 f0 (Scenes.vec 0 0 1) = Scenes.vec 0 0 1
  /\ emit Scenes.patterned f0 f0 (Scenes.vec 1 0 0) = Scenes.vec 1 0 0
  /\ trace Scenes.patterned_world Scenes.probe 25 0 = Some (vzero, 0)
  /\ trace Scenes.patterned_world Scenes.probe' 25 0 = Some (vzero, 0).
Proof.
  split; [vm_compute; reflexivity | ]. split; [vm_compute; reflexivity | ].
  pose (obj := mkSphere Scenes.patterned (Scenes.vec 0 0 0) (Scenes.num 1)).
  assert (ObjCollection_getHit Scenes.patterned_world Scenes.probe lit_0_001 FLT_MAX
          = Some (0%nat, mkHit (Scenes.num 4) (Scenes.vec 0 0 1) (Scenes.vec 0 0 1))) as Hh1
    by (vm_compute; reflexivity).
  assert (ObjCollection_getHit Scenes.patterned_world Scenes.probe' lit_0_001 FLT_MAX
          = Some (0%nat, mkHit (Scenes.num 4) (Scenes.vec 1 0 0) (Scenes.vec 1 0 0))) as Hh2
    by (vm_compute; reflexivity).
  assert (ObjCollection_getObject Scenes.patterned_world 0 = Some obj) as Ho by reflexivity.
  destruct color_emit_ignores_hit as [_ Hsame].
  destruct (Hsame Scenes.F binary32 Scenes.Rng _ _
              (@ObjCollection_getHit Scenes.F binary32 Scenes.Rng)
              (@ObjCollection_getObject Scenes.F Scenes.Rng)
              (@sphere_material Scenes.F Scenes.Rng)
              Scenes.patterned_world Scenes.probe Scenes.probe'
              _ _ _ _ _ _ Hh1 Ho Hh2 Ho eq_refl 25 0) as (_ & _ & Hcap).
  exact (Hcap ltac:(discriminate)).
Defined.

(** ** The driver *)

Section DriverFacts.
Context {F Dbl : Type} `{Scalar F} `{Display F Dbl}.
Variable Rng : Type.
Variables World Object Camera : Type.
Variable getHit : World -> Ray F -> F -> F -> option (nat * Hit F).
Variable getObject : World -> nat -> option Object.
Variable getMaterial : Object -> Material F Rng.
Variable drand48 : Rng -> Dbl * Rng.
Variable getRay : Camera -> F -> F -> Rng -> Ray F * Rng.
Variables nx ny ns : Z.
Variable cam : Camera.
Variable world : World.

Local Abbreviation sample_loop' :=
  (sample_loop getHit getObject getMaterial drand48 getRay nx ny cam world).
Local Abbreviation samples' :=
  (samples getHit getObject getMaterial drand48 getRay nx ny cam world).
Local Abbreviation render_pixel' :=
  (render_pixel getHit getObject getMaterial drand48 getRay nx ny ns cam world).
Local Abbreviation row_loop' :=
  (row_loop getHit getObject getMaterial drand48 getRay nx ny ns cam world).
Local Abbreviation image_loop' :=
  (image_loop getHit getObject getMaterial drand48 getRay nx ny ns cam world).
Local Abbreviation render' :=
  (render getHit getObject getMaterial drand48 getRay nx ny ns cam world).
Local Abbreviation pixel_of cs := (displayed_pixel (Dbl := Dbl) ns cs).
Local Abbreviation written' :=
  (written getHit getObject getMaterial drand48 getRay nx ny ns cam world).

(** The sample loop adds the samples to [px], first to last. *)
Lemma sample_loop_sums k :
  forall x y px g,
    sample_loop' k x y px g
    = match samples' k x y g with
      | Some (cs, g') => Some (fold_left vadd cs px, g')
      | None => None
      end.
Proof.
  induction k as [ | k IH]; intros x y px g; cbn [sample_loop samples]; [reflexivity | ].
  destruct (sample_ray drand48 getRay nx ny cam x y g) as [r g1].
  destruct (color getHit getObject getMaterial world r 0 g1) as [[c g2] | ]; [ | reflexivity].
  rewrite IH. destruct (samples' k x y g2) as [[cs g3] | ]; reflexivity.
Qed.

Lemma samples_length k :
  forall x y g cs g', samples' k x y g = Some (cs, g') -> length cs = k.
Proof.
  induction k as [ | k IH]; intros x y g cs g'; cbn [samples].
  - now intros [= <- _].
  - destruct (sample_ray drand48 getRay nx ny cam x y g) as [r g1].
    destruct (color getHit getObject getMaterial world r 0 g1) as [[c g2] | ]; [ | discriminate].
    destruct (samples' k x y g2) as [[cs' g3] | ] eqn:Hs; [ | discriminate].
    intros [= <- _]. cbn. f_equal. eapply IH. exact Hs.
Qed.

(** One pixel: the bytes stored are those of the mean of its samples. *)
Lemma render_pixel_mean x y g :
  render_pixel' x y g
  = match samples' (Z.to_nat ns) x y g with
    | Some (cs, g') => Some (pixel_of cs, g')
    | None => None
    end.
Proof.
  unfold render_pixel. rewrite sample_loop_sums.
  destruct (samples' (Z.to_nat ns) x y g) as [[cs g'] | ]; reflexivity.
Qed.


Lemma store_same (image : Image) y x p : store image y x p y x = Some p.
Proof. unfold store. now rewrite !Z.eqb_refl. Qed.

Lemma store_other (image : Image) y x p y' x' :
  y' <> y \/ x' <> x -> store image y x p y' x' = image y' x'.
Proof.
  unfold store. intros Hne.
  destruct (y' =? y) eqn:Hy; [ | reflexivity].
  destruct (x' =? x) eqn:Hx; [ | reflexivity].
  apply Z.eqb_eq in Hy, Hx. tauto.
Qed.

(** The loop over [x] writes the cells [x .. x + k - 1] of row [y] and
    leaves every other cell as it was. *)
Lemma row_loop_writes k :
  forall x y image g image' g',
    row_loop' k x y image g = Some (image', g') ->
    (forall y' x', y' <> y \/ x' < x \/ x + Z.of_nat k <= x' -> image' y' x' = image y' x')
    /\ (forall x', x <= x' < x + Z.of_nat k -> written' (image' y x') x' y).
Proof.
  induction k as [ | k IH]; intros x y image g image' g'; cbn [row_loop].
  - intros [= <- _]. split; [reflexivity | lia].
  - rewrite render_pixel_mean.
    destruct (samples' (Z.to_nat ns) x y g) as [[cs g1] | ] eqn:Hs; [ | discriminate].
    intros Hrow. apply IH in Hrow. destruct Hrow as [Hkeep Hnew]. split.
    + intros y' x' Hout. rewrite Hkeep by lia. apply store_other. lia.
    + intros x' Hx'. destruct (Z.eq_dec x' x) as [-> | Hne].
      * rewrite Hkeep by lia. rewrite store_same.
        exists g, cs, g1. split; [exact Hs | ]. split; [ | reflexivity].
        eapply samples_length. exact Hs.
      * apply Hnew. lia.
Qed.

(** The loop over [y] writes the rows [y - k + 1 .. y] and leaves the
    other rows as they were. *)
Lemma image_loop_writes k :
  forall y image g image' g',
    image_loop' k y image g = Some (image', g') ->
    (forall y' x', y < y' \/ y' <= y - Z.of_nat k -> image' y' x' = image y' x')
    /\ (forall y' x', y - Z.of_nat k < y' <= y -> 0 <= x' < nx -> written' (image' y' x') x' y').
Proof.
  induction k as [ | k IH]; intros y image g image' g'; cbn [image_loop].
  - intros [= <- _]. split; [reflexivity | lia].
  - destruct (row_loop' (Z.to_nat nx) 0 y image g) as [[image1 g1] | ] eqn:Hrow;
      [ | discriminate].
    apply row_loop_writes in Hrow. destruct Hrow as [Hrkeep Hrnew].
    intros Himg. apply IH in Himg. destruct Himg as [Hkeep Hnew]. split.
    + intros y' x' Hout. rewrite Hkeep by lia. apply Hrkeep. lia.
    + intros y' x' Hy' Hx'. destruct (Z.eq_dec y' y) as [-> | Hne].
      * rewrite Hkeep by lia. apply Hrnew. lia.
      * apply Hnew; lia.
Qed.

(** On one thread the loop over [y] takes the rows from [y] downwards. *)
Lemma image_loop_rows_down k :
  forall y image g,
    image_loop' k y image g
    = rows_loop getHit getObject getMaterial drand48 getRay nx ny ns cam world
        (rows_down k y) image g.
Proof.
  induction k as [ | k IH]; intros y image g; cbn [image_loop rows_loop rows_down];
    [reflexivity | ].
  destruct (row_loop' (Z.to_nat nx) 0 y image g) as [[image1 g1] | ]; [apply IH | reflexivity].
Qed.

(** C8: the pixel the driver computes is, channel by channel, the cast to
    [unsigned char] of [min(255, 255 * sqrt(m))], [m] being the mean of the
    [ns] values of [color] on the sample rays of the pixel: averaging comes
    first, gamma and clamping are applied to the mean, and [color] applies
    neither.  Every pixel of the image holds these bytes once the loops have
    run. *)
Theorem writeImage_stores_displayed_mean :
  (forall x y g,
      render_pixel' x y g
      = match samples' (Z.to_nat ns) x y g with
        | Some (cs, g') =>
            Some ({| byte0 := displayed (vz (mean ns cs));
                     byte1 := displayed (vy (mean ns cs));
                     byte2 := displayed (vx (mean ns cs)) |}, g')
        | None => None
        end)
  /\ (forall g image g',
         render' g = Some (image, g') ->
         forall x y, 0 <= x < nx -> 0 <= y < ny ->
           exists gxy cs g2,
             samples' (Z.to_nat ns) x y gxy = Some (cs, g2)
             /\ length cs = Z.to_nat ns
             /\ image y x = Some (displayed_pixel ns cs)).
Proof.
  split.
  - intros x y g. apply render_pixel_mean.
  - intros g image g' Hr x y Hx Hy. unfold render in Hr.
    apply image_loop_writes in Hr. destruct Hr as [_ Hnew].
    apply (Hnew y x); lia.
Qed.
End DriverFacts.

(** The tiny render from the generator state 0: of the two samples of the
    pixel at [x = 1], [y = 1] one meets the light, the mean is one half in
    every channel, and the bytes stored are [180 = trunc (255 * sqrt 0.5)]. *)
Lemma writeImage_stores_displayed_mean_witness :
  exists image g',
    Scenes.tiny_render 0 = Some (image, g')
    /\ image 1 1 = Some {| byte0 := 180; byte1 := 180; byte2 := 180 |}
    /\ exists gxy cs g2,
        Scenes.tiny_samples 1 1 gxy = Some (cs, g2)
        /\ length cs = 2%nat
        /\ image 1 1 = Some (displayed_pixel 2 cs).
Proof.
  assert (option_map (fun ig : Image * Scenes.Rng => fst ig 1 1) (Scenes.tiny_render 0)
          = Some (Some {| byte0 := 180; byte1 := 180; byte2 := 180 |})) as Hpx
    by (vm_compute; reflexivity).
  destruct (Scenes.tiny_render 0) as [[image g'] | ] eqn:Hr; [ | discriminate].
  exists image, g'. split; [reflexivity | ].
  split; [now injection Hpx | ].
  exact (proj2 (writeImage_stores_displayed_mean
                  (@ObjCollection_getHit Scenes.F binary32 Scenes.Rng)
                  (@ObjCollection_getObject Scenes.F Scenes.Rng)
                  (@sphere_material Scenes.F Scenes.Rng)
                  Binary64.drand48 Scenes.eye_ray 2 2 2 tt [Scenes.unit_sphere])
               0 image g' Hr 1 1 ltac:(lia) ltac:(lia)).
Defined.

(** ** Two runs of the parallel loop *)

(** C7 fails on the parallel loop: two runs of the tiny render from the
    same generator state, one taking row 1 before row 0 as one thread does,
    the other taking row 0 first, store different bytes at the pixel
    [x = 1], [y = 1]. *)
Theorem render_depends_on_row_order :
  Scenes.tiny_rows [1; 0] 0 = Scenes.tiny_render 0
  /\ option_map (fun ig : Image * Scenes.Rng => fst ig 1 1) (Scenes.tiny_rows [1; 0] 0)
     = Some (Some {| byte0 := 180; byte1 := 180; byte2 := 180 |})
  /\ option_map (fun ig : Image * Scenes.Rng => fst ig 1 1) (Scenes.tiny_rows [0; 1] 0)
     = Some (Some {| byte0 := 0; byte1 := 0; byte2 := 0 |}).
Proof.
  split; [ | split; vm_compute; reflexivity].
  unfold Scenes.tiny_render, render. rewrite image_loop_rows_down. reflexivity.
Qed.

(** ** The bitmap file *)

Section BitmapFacts.
Import Bitmap.

Lemma int_id z : - 2 ^ 31 <= z < 2 ^ 31 -> int z = z.
Proof. intros Hz. unfold int. rewrite Z.mod_small; lia. Qed.

Lemma le32_uchar z :
  uchar z + 256 * uchar (Z.shiftr z 8)
  + 65536 * (uchar (Z.shiftr z 16) + 256 * uchar (Z.shiftr z 24)) = z mod 2 ^ 32.
Proof.
  unfold uchar. rewrite !Z.shiftr_div_pow2 by lia.
  change (2 ^ 8) with 256. change (2 ^ 16) with 65536. change (2 ^ 24) with 16777216.
  change (2 ^ 32) with 4294967296.
  Z.div_mod_to_equations. lia.
Qed.

Lemma int_mod z : - 2 ^ 31 <= z < 2 ^ 31 -> int (z mod 2 ^ 32) = z.
Proof.
  intros Hz. unfold int. change (2 ^ 32) with 4294967296 in *. change (2 ^ 31) with 2147483648 in *.
  Z.div_mod_to_equations. lia.
Qed.

(** The bytes the file header holds after a call, whatever it held. *)
Lemma fileHeader_shape buf :
  fileHeader_state buf ->
  exists b0 b1 b2 b3 b4 b5 b10,
    buf = [b0; b1; b2; b3; b4; b5; 0; 0; 0; 0; b10; 0; 0; 0].
Proof.
  intros Hs. induction Hs as [ | buf height stride _ IH].
  - now exists 0, 0, 0, 0, 0, 0, 0.
  - destruct IH as (b0 & b1 & b2 & b3 & b4 & b5 & b10 & ->).
    unfold createBitmapFileHeader. cbn [poke]. repeat eexists.
Qed.

Lemma infoHeader_shape buf :
  infoHeader_state buf ->
  exists b0 b4 b5 b6 b7 b8 b9 b10 b11 b12 b14,
    buf = [b0; 0; 0; 0; b4; b5; b6; b7; b8; b9; b10; b11; b12; 0; b14; 0]
          ++ repeat 0 24.
Proof.
  intros Hs. induction Hs as [ | buf height width _ IH].
  - now exists 0, 0, 0, 0, 0, 0, 0, 0, 0, 0, 0.
  - destruct IH as (b0 & b4 & b5 & b6 & b7 & b8 & b9 & b10 & b11 & b12 & b14 & ->).
    unfold createBitmapInfoHeader. cbn [poke repeat app]. repeat eexists.
Qed.

Lemma fileHeader_bytes buf height stride :
  fileHeader_state buf ->
  createBitmapFileHeader buf height stride
  = let fileSize := int (54 + int (stride * height)) in
    [66; 77; uchar fileSize; uchar (Z.shiftr fileSize 8); uchar (Z.shiftr fileSize 16);
     uchar (Z.shiftr fileSize 24); 0; 0; 0; 0; 54; 0; 0; 0].
Proof.
  intros Hs. destruct (fileHeader_shape Hs) as (b0 & b1 & b2 & b3 & b4 & b5 & b10 & ->).
  reflexivity.
Qed.

Lemma infoHeader_bytes buf height width :
  infoHeader_state buf ->
  createBitmapInfoHeader buf height width
  = [40; 0; 0; 0;
     uchar width; uchar (Z.shiftr width 8); uchar (Z.shiftr width 16);
     uchar (Z.shiftr width 24);
     uchar height; uchar (Z.shiftr height 8); uchar (Z.shiftr height 16);
     uchar (Z.shiftr height 24);
     1; 0; 24; 0] ++ repeat 0 24.
Proof.
  intros Hs. destruct (infoHeader_shape Hs)
    as (b0 & b4 & b5 & b6 & b7 & b8 & b9 & b10 & b11 & b12 & b14 & ->).
  reflexivity.
Qed.

Lemma fileSize_value height stride :
  0 <= 54 + stride * height < 2 ^ 31 ->
  int (54 + int (stride * height)) = 54 + stride * height.
Proof. intros Hs. rewrite (@int_id (stride * height)) by lia. apply int_id. lia. Qed.

(** X2: whatever earlier calls left in the static array, the file header
    returned is the one a fresh array gives: 14 bytes, the signature [BM],
    the file size [54 + stride * height] as a little-endian field at byte
    2 when it fits an [int], zeros in the reserved field, and 54 as the
    offset of the pixel array. *)
Theorem createBitmapFileHeader_fields buf height stride :
  fileHeader_state buf ->
  0 <= 54 + stride * height < 2 ^ 31 ->
  let header := createBitmapFileHeader buf height stride in
  header = createBitmapFileHeader fileHeader_static height stride
  /\ length header = 14%nat
  /\ firstn 2 header = [char_code "B"; char_code "M"]
  /\ le32 header 2 = 54 + stride * height
  /\ le32 header 6 = 0
  /\ le32 header 10 = 54.
Proof.
  intros Hs Hsize header. subst header.
  rewrite (fileHeader_bytes _ _ Hs), (fileHeader_bytes _ _ fileHeader_fresh).
  cbv zeta. repeat split.
  unfold le32, le16. cbn [nth Nat.add].
  rewrite le32_uchar, fileSize_value by assumption.
  rewrite Z.mod_small; lia.
Qed.

(** X3: whatever earlier calls left in the static array, the information
    header returned is the one a fresh array gives: 40 bytes, its size 40,
    the width and the height as signed little-endian fields that read back
    as the arguments, one plane, 24 bits per pixel, and zeros from byte 16
    on (no compression, no size, resolution or palette). *)
Theorem createBitmapInfoHeader_fields buf height width :
  infoHeader_state buf ->
  - 2 ^ 31 <= width < 2 ^ 31 ->
  - 2 ^ 31 <= height < 2 ^ 31 ->
  let header := createBitmapInfoHeader buf height width in
  header = createBitmapInfoHeader infoHeader_static height width
  /\ length header = 40%nat
  /\ le32 header 0 = 40
  /\ int (le32 header 4) = width
  /\ int (le32 header 8) = height
  /\ le16 header 12 = 1
  /\ le16 header 14 = 24
  /\ skipn 16 header = repeat 0 24.
Proof.
  intros Hs Hw Hh header. subst header.
  rewrite (infoHeader_bytes _ _ Hs), (infoHeader_bytes _ _ infoHeader_fresh).
  split; [reflexivity | ]. split; [reflexivity | ]. split; [reflexivity | ].
  unfold le32, le16. cbn [nth Nat.add app repeat].
  rewrite !le32_uchar, !int_mod by assumption.
  repeat split.
Qed.

Lemma fwrite_some ptr offset size count stream stream' :
  fwrite ptr offset size count stream = Some stream' ->
  0 <= offset /\ 0 <= count /\ offset + size * count <= Z.of_nat (length ptr)
  /\ stream' = stream ++ firstn (Z.to_nat (size * count)) (skipn (Z.to_nat offset) ptr).
Proof.
  unfold fwrite.
  destruct (Z.leb_spec 0 offset); [ | discriminate].
  destruct (Z.leb_spec 0 count); [ | discriminate].
  destruct (Z.leb_spec (offset + size * count) (Z.of_nat (length ptr))); [ | discriminate].
  cbn. intros [= <-]. repeat split; lia.
Qed.

Lemma fwrite_in_bounds ptr offset size count stream :
  0 <= offset -> 0 <= count -> offset + size * count <= Z.of_nat (length ptr) ->
  fwrite ptr offset size count stream
  = Some (stream ++ firstn (Z.to_nat (size * count)) (skipn (Z.to_nat offset) ptr)).
Proof.
  intros H1 H2 H3. unfold fwrite.
  apply Z.leb_le in H1, H2, H3. now rewrite H1, H2, H3.
Qed.

Lemma fwrite_none ptr offset size count stream :
  fwrite ptr offset size count stream = None ->
  offset < 0 \/ count < 0 \/ Z.of_nat (length ptr) < offset + size * count.
Proof.
  unfold fwrite.
  destruct (Z.leb_spec 0 offset); [ | lia].
  destruct (Z.leb_spec 0 count); [ | lia].
  destruct (Z.leb_spec (offset + size * count) (Z.of_nat (length ptr))); [discriminate | lia].
Qed.

Lemma byte_at_app_l a b n :
  n < Z.of_nat (length a) -> byte_at (a ++ b) n = byte_at a n.
Proof.
  intros Hn. unfold byte_at. destruct (Z.ltb_spec n 0); [reflexivity | ].
  apply nth_error_app1. lia.
Qed.

Lemma byte_at_app_r a b n :
  0 <= n -> byte_at (a ++ b) (Z.of_nat (length a) + n) = byte_at b n.
Proof.
  intros Hn. unfold byte_at.
  destruct (Z.ltb_spec (Z.of_nat (length a) + n) 0); [lia | ].
  destruct (Z.ltb_spec n 0); [lia | ].
  rewrite nth_error_app2 by lia. f_equal. lia.
Qed.

Lemma byte_at_slice bytes offset len n :
  0 <= offset -> 0 <= n < len ->
  byte_at (firstn (Z.to_nat len) (skipn (Z.to_nat offset) bytes)) n
  = byte_at bytes (offset + n).
Proof.
  intros Ho Hn. unfold byte_at.
  destruct (Z.ltb_spec n 0); [lia | ].
  destruct (Z.ltb_spec (offset + n) 0); [lia | ].
  rewrite nth_error_firstn.
  destruct (Nat.ltb_spec (Z.to_nat n) (Z.to_nat len)); [ | lia].
  rewrite nth_error_skipn. f_equal. lia.
Qed.

Lemma byte_at_padding k n :
  0 <= k <= 3 -> 0 <= n < k ->
  byte_at (firstn (Z.to_nat k) (skipn (Z.to_nat 0) padding)) n = Some 0.
Proof.
  intros Hk Hn.
  assert (k = 1 \/ k = 2 \/ k = 3) as [-> | [-> | ->]] by lia;
    assert (n = 0 \/ n = 1 \/ n = 2) as [-> | [-> | ->]] by lia; try lia; reflexivity.
Qed.

Section Rows.
Variable image : list Z.
Variable width : Z.
Hypothesis width_nonneg : 0 <= width.
Hypothesis width_fits : 3 * width + 3 < 2 ^ 31.

Lemma widthInBytes_value : widthInBytes width = 3 * width.
Proof. unfold widthInBytes, BYTES_PER_PIXEL. rewrite int_id; lia. Qed.

Lemma paddingSize_value :
  paddingSize width = (4 - (3 * width) mod 4) mod 4.
Proof.
  unfold paddingSize. rewrite widthInBytes_value.
  rewrite (Z.rem_mod_nonneg (3 * width) 4) by lia.
  pose proof (Z.mod_pos_bound (3 * width) 4 ltac:(lia)).
  rewrite int_id by lia. rewrite Z.rem_mod_nonneg by lia. reflexivity.
Qed.

Lemma paddingSize_bounds : 0 <= paddingSize width <= 3.
Proof.
  rewrite paddingSize_value.
  pose proof (Z.mod_pos_bound (4 - (3 * width) mod 4) 4 ltac:(lia)). lia.
Qed.

Lemma stride_value : stride width = 3 * width + paddingSize width.
Proof.
  unfold stride. rewrite widthInBytes_value.
  pose proof paddingSize_bounds. rewrite int_id; lia.
Qed.

Lemma slice_length offset len :
  0 <= offset -> 0 <= len -> offset + len <= Z.of_nat (length image) ->
  Z.of_nat (length (firstn (Z.to_nat len) (skipn (Z.to_nat offset) image))) = len.
Proof. intros Ho Hl Hb. rewrite length_firstn, length_skipn. lia. Qed.

Lemma padding_length k :
  0 <= k <= 3 ->
  Z.of_nat (length (firstn (Z.to_nat k) (skipn (Z.to_nat 0) padding))) = k.
Proof. intros Hk. rewrite length_firstn, length_skipn. cbn [padding length]. lia. Qed.

Lemma write_rows_some k :
  forall i file file',
    0 <= i -> (i + Z.of_nat k) * (3 * width) < 2 ^ 31 -> i + Z.of_nat k < 2 ^ 31 ->
    write_rows k i image width (3 * width) (paddingSize width) file = Some file' ->
    Z.of_nat (length file') = Z.of_nat (length file) + Z.of_nat k * stride width
    /\ (k <> O -> (i + Z.of_nat k) * (3 * width) <= Z.of_nat (length image))
    /\ (forall n, n < Z.of_nat (length file) -> byte_at file' n = byte_at file n)
    /\ (forall r j, 0 <= r < Z.of_nat k -> 0 <= j < stride width ->
          byte_at file' (Z.of_nat (length file) + r * stride width + j)
          = if j <? 3 * width then byte_at image ((i + r) * (3 * width) + j) else Some 0).
Proof.
  pose proof paddingSize_bounds as Hpad. pose proof stride_value as Hstride.
  induction k as [ | k IH]; intros i file file' Hi Hmax Hcount; cbn [write_rows].
  - intros [= <-]. repeat split; lia.
  - assert (0 <= i * (3 * width) < 2 ^ 31) as Hoff by nia.
    rewrite (@int_id (i * (3 * width))) by lia.
    destruct (fwrite image _ _ _ file) as [file1 | ] eqn:H1; [ | discriminate].
    destruct (fwrite padding 0 1 _ file1) as [file2 | ] eqn:H2; [ | discriminate].
    apply fwrite_some in H1. destruct H1 as (_ & _ & Hin & ->).
    apply fwrite_some in H2. destruct H2 as (_ & _ & _ & ->).
    unfold BYTES_PER_PIXEL in *. rewrite Z.mul_1_l.
    rewrite (@int_id (i + 1)) by lia.
    intros Hrest. apply IH in Hrest; [ | lia | nia | lia].
    destruct Hrest as (Hlen & Hbound & Hkeep & Hrows).
    set (row := firstn (Z.to_nat (3 * width)) (skipn (Z.to_nat (i * (3 * width))) image)) in *.
    set (pad := firstn (Z.to_nat (paddingSize width)) (skipn (Z.to_nat 0) padding)) in *.
    assert (Z.of_nat (length row) = 3 * width) as Hrow
      by (apply slice_length; lia).
    assert (Z.of_nat (length pad) = paddingSize width) as Hp
      by (apply padding_length; lia).
    assert (Z.of_nat (length ((file ++ row) ++ pad))
            = Z.of_nat (length file) + stride width) as Hlen2
      by (rewrite !length_app; lia).
    split; [nia | ]. split; [intros _; destruct k; [nia | ]; specialize (Hbound ltac:(discriminate)); nia | ].
    split.
    + intros n Hn. rewrite Hkeep by lia.
      rewrite <- app_assoc. apply byte_at_app_l. exact Hn.
    + intros r j Hr Hj. destruct (Z.eq_dec r 0) as [-> | Hr0].
      * rewrite Hkeep by lia. rewrite Z.mul_0_l, !Z.add_0_r.
        destruct (Z.ltb_spec j (3 * width)) as [Hlt | Hge].
        -- rewrite byte_at_app_l by (rewrite length_app; lia).
           rewrite byte_at_app_r by lia. apply byte_at_slice; lia.
        -- replace (Z.of_nat (length file) + j)
             with (Z.of_nat (length (file ++ row)) + (j - 3 * width))
             by (rewrite length_app; lia).
           rewrite byte_at_app_r by lia. apply byte_at_padding; lia.
      * specialize (Hrows (r - 1) j ltac:(lia) Hj).
        replace (Z.of_nat (length ((file ++ row) ++ pad)) + (r - 1) * stride width + j)
          with (Z.of_nat (length file) + r * stride width + j) in Hrows by lia.
        rewrite Hrows. replace (i + 1 + (r - 1)) with (i + r) by lia. reflexivity.
Qed.

Lemma write_rows_total k :
  forall i file,
    0 <= i -> (i + Z.of_nat k) * (3 * width) < 2 ^ 31 -> i + Z.of_nat k < 2 ^ 31 ->
    k = O \/ (i + Z.of_nat k) * (3 * width) <= Z.of_nat (length image) ->
    exists file',
      write_rows k i image width (3 * width) (paddingSize width) file = Some file'.
Proof.
  pose proof paddingSize_bounds as Hpad.
  induction k as [ | k IH]; intros i file Hi Hmax Hcount Hlen; cbn [write_rows].
  - now exists file.
  - destruct Hlen as [ | Hlen]; [discriminate | ].
    assert (0 <= i * (3 * width) < 2 ^ 31) as Hoff by nia.
    rewrite (@int_id (i * (3 * width))) by lia.
    rewrite fwrite_in_bounds by (unfold BYTES_PER_PIXEL; nia).
    rewrite fwrite_in_bounds by (cbn [padding length]; lia).
    rewrite (@int_id (i + 1)) by lia.
    apply IH; [lia | nia | lia | ].
    destruct k; [now left | right; nia].
Qed.
End Rows.

Lemma nth_byte_at (a b : list Z) (n : nat) :
  byte_at a (Z.of_nat n) = byte_at b (Z.of_nat n) -> nth n a 0 = nth n b 0.
Proof.
  unfold byte_at. destruct (Z.ltb_spec (Z.of_nat n) 0); [lia | ].
  rewrite Nat2Z.id. intros Heq.
  rewrite <- !nth_default_eq. unfold nth_default. now rewrite Heq.
Qed.

Lemma le32_prefix (a b : list Z) (n : nat) :
  (forall k, k < Z.of_nat (length b) -> byte_at a k = byte_at b k) ->
  (n + 3 < length b)%nat ->
  le32 a n = le32 b n.
Proof.
  intros Hkeep Hn. unfold le32, le16.
  rewrite !(@nth_byte_at a b) by (apply Hkeep; lia). reflexivity.
Qed.

Lemma stride_multiple width :
  0 <= width -> 3 * width + 3 < 2 ^ 31 ->
  stride width = 3 * width + paddingSize width
  /\ 0 <= paddingSize width <= 3
  /\ stride width mod 4 = 0.
Proof.
  intros Hw Hfit. rewrite stride_value, paddingSize_value by assumption.
  Z.div_mod_to_equations. lia.
Qed.

(** X1: a row of the file has the bytes of its pixels and then zero to
    three bytes of padding: the stride is the least multiple of 4 that is
    not below [3 * width]. *)
Theorem stride_is_padded width :
  0 <= width -> 3 * width + 3 < 2 ^ 31 ->
  stride width = widthInBytes width + paddingSize width
  /\ widthInBytes width = 3 * width
  /\ 0 <= paddingSize width < 4
  /\ stride width mod 4 = 0.
Proof.
  intros Hw Hfit. destruct (stride_multiple Hw Hfit) as (Hs & Hp & Hm).
  rewrite widthInBytes_value by assumption. repeat split; lia.
Qed.

Section File.
Variable writable : String.string -> bool.
Variables fileHeader infoHeader image : list Z.
Variables height width : Z.
Variable imageFileName : String.string.
Hypothesis fileHeader_ok : fileHeader_state fileHeader.
Hypothesis infoHeader_ok : infoHeader_state infoHeader.
Hypothesis width_nonneg : 0 <= width.
Hypothesis height_nonneg : 0 <= height < 2 ^ 31.
Hypothesis width_fits : 3 * width + 3 < 2 ^ 31.
Hypothesis size_fits : 54 + stride width * height < 2 ^ 31.

Local Abbreviation written_file :=
  (generateBitmapImage writable fileHeader infoHeader image height width imageFileName).
Local Abbreviation headers :=
  (createBitmapFileHeader fileHeader height (stride width)
   ++ createBitmapInfoHeader infoHeader height width).

Lemma generateBitmapImage_rows :
  written_file
  = if writable imageFileName
    then write_rows (Z.to_nat height) 0 image width (3 * width) (paddingSize width) headers
    else None.
Proof.
  unfold generateBitmapImage, fopen. destruct (writable imageFileName); [ | reflexivity].
  rewrite (fileHeader_bytes _ _ fileHeader_ok), (infoHeader_bytes _ _ infoHeader_ok).
  rewrite widthInBytes_value by assumption. reflexivity.
Qed.

Lemma headers_length : Z.of_nat (length headers) = 54.
Proof.
  rewrite (fileHeader_bytes _ _ fileHeader_ok), (infoHeader_bytes _ _ infoHeader_ok).
  reflexivity.
Qed.

Lemma rows_fit : (0 + Z.of_nat (Z.to_nat height)) * (3 * width) < 2 ^ 31.
Proof.
  destruct (stride_multiple width_nonneg width_fits) as (Hs & Hp & _). nia.
Qed.

Lemma count_fits : 0 + Z.of_nat (Z.to_nat height) < 2 ^ 31.
Proof. lia. Qed.

Lemma generateBitmapImage_some file :
  written_file = Some file ->
  writable imageFileName = true
  /\ Z.of_nat (length file) = 54 + stride width * height
  /\ (0 < height -> height * (3 * width) <= Z.of_nat (length image))
  /\ (forall n, n < 54 -> byte_at file n = byte_at headers n)
  /\ (forall i j, 0 <= i < height -> 0 <= j < stride width ->
        byte_at file (54 + i * stride width + j)
        = if j <? 3 * width then byte_at image (i * (3 * width) + j) else Some 0).
Proof.
  rewrite generateBitmapImage_rows.
  destruct (writable imageFileName); [ | discriminate]. intros Hrows.
  split; [reflexivity | ].
  apply write_rows_some in Hrows; [ | assumption | assumption | lia | exact rows_fit | exact count_fits ].
  rewrite headers_length, !Z2Nat.id in Hrows by lia.
  destruct Hrows as (Hlen & Hbound & Hkeep & Hrows).
  split; [lia | ]. split; [intros Hh; specialize (Hbound ltac:(lia)); lia | ].
  split; [exact Hkeep | ].
  intros i j Hi Hj. rewrite Hrows by lia. reflexivity.
Qed.

(** X4: the file written has [54 + stride * height] bytes, which is the
    size its header declares; the header gives 54 as the offset of the
    pixel array, 40 as the size of the information header, the width, the
    height, one plane and 24 bits per pixel. *)
Theorem generateBitmapImage_header file :
  generateBitmapImage writable fileHeader infoHeader image height width imageFileName
  = Some file ->
  Z.of_nat (length file) = 54 + stride width * height
  /\ le32 file 2 = Z.of_nat (length file)
  /\ le32 file 10 = 54
  /\ le32 file 14 = 40
  /\ le32 file 18 = width
  /\ le32 file 22 = height
  /\ le16 file 26 = 1
  /\ le16 file 28 = 24.
Proof.
  intros Hfile. destruct (generateBitmapImage_some Hfile) as (_ & Hlen & _ & Hkeep & _).
  assert (forall n, (n + 3 < 54)%nat -> le32 file n = le32 headers n) as H32.
  { intros n Hn. apply le32_prefix.
    - intros k Hk. apply Hkeep. rewrite headers_length in Hk. exact Hk.
    - pose proof headers_length. lia. }
  assert (forall n, (n + 1 < 54)%nat -> le16 file n = le16 headers n) as H16.
  { intros n Hn. unfold le16. rewrite !(@nth_byte_at file headers) by (apply Hkeep; lia).
    reflexivity. }
  split; [exact Hlen | ].
  rewrite !H32, !H16 by lia. rewrite Hlen.
  rewrite (fileHeader_bytes _ _ fileHeader_ok), (infoHeader_bytes _ _ infoHeader_ok).
  cbv zeta. unfold le32, le16. cbn [nth Nat.add app repeat].
  rewrite !le32_uchar.
  assert (0 <= stride width * height)
    by (destruct (stride_multiple width_nonneg width_fits) as (Hs & Hp & _); nia).
  rewrite fileSize_value by lia.
  rewrite !Z.mod_small by lia. repeat split.
Qed.

(** X5: the pixel array starts at byte 54; row [i] of the image lies at
    [54 + i * stride], byte for byte, followed by zeros up to the stride. *)
Theorem generateBitmapImage_pixels file :
  generateBitmapImage writable fileHeader infoHeader image height width imageFileName
  = Some file ->
  forall i j, 0 <= i < height -> 0 <= j < stride width ->
    byte_at file (54 + i * stride width + j)
    = if j <? 3 * width then byte_at image (i * (3 * width) + j) else Some 0.
Proof. intros Hfile. apply (generateBitmapImage_some Hfile). Qed.

Lemma generateBitmapImage_total :
  writable imageFileName = true ->
  height = 0 \/ height * (3 * width) <= Z.of_nat (length image) ->
  exists file, written_file = Some file.
Proof.
  intros Hopen Hlen. rewrite generateBitmapImage_rows, Hopen.
  apply write_rows_total; [assumption | assumption | lia | exact rows_fit | exact count_fits | ].
  destruct Hlen as [-> | Hlen]; [now left | right; lia].
Qed.

(** X6: the writer tests neither the result of [fopen] nor the size of
    the array: it has no defined result exactly when the file cannot be
    opened for writing, so that the first [fwrite] gets the null pointer,
    or there is a row to write and the array is shorter than
    [height * 3 * width] bytes, so that a row is read past its end. *)
Theorem generateBitmapImage_defined :
  generateBitmapImage writable fileHeader infoHeader image height width imageFileName
  = None
  <-> writable imageFileName = false
      \/ (0 < height /\ Z.of_nat (length image) < height * (3 * width)).
Proof.
  split.
  - intros Hnone.
    destruct (writable imageFileName) eqn:Hopen; [right | now left].
    destruct (Z_lt_dec 0 height) as [Hh | Hh];
      [destruct (Z_lt_dec (Z.of_nat (length image)) (height * (3 * width))) as [Hl | Hl] | ];
      [tauto | | ].
    + destruct (generateBitmapImage_total Hopen) as [file Hfile]; [right; lia | congruence].
    + destruct (generateBitmapImage_total Hopen) as [file Hfile]; [left; lia | congruence].
  - intros [Hclosed | [Hh Hl]].
    + rewrite generateBitmapImage_rows, Hclosed. reflexivity.
    + destruct written_file as [file | ] eqn:Hfile; [ | reflexivity].
      destruct (generateBitmapImage_some Hfile) as (_ & _ & Hbound & _).
      specialize (Hbound Hh). lia.
Qed.
End File.
End BitmapFacts.

(** ** When [color] returns *)

Section IntegratorReturns.
Context {F : Type} `{Scalar F}.
Variable Rng : Type.
Variables World Object : Type.
Variable getHit : World -> Ray F -> F -> F -> option (nat * Hit F).
Variable getObject : World -> nat -> option Object.
Variable getMaterial : Object -> Material F Rng.

Lemma color_total world :
  (forall r index hit,
      getHit world r lit_0_001 FLT_MAX = Some (index, hit) ->
      exists obj, getObject world index = Some obj) ->
  forall r n g, exists c g', color getHit getObject getMaterial world r n g = Some (c, g').
Proof.
  intros Hvalid r n g.
  remember (bounces_left n) as k eqn:Hk. revert r n g Hk.
  induction k as [k IH] using lt_wf_ind. intros r n g Hk.
  rewrite color_equation_1.
  destruct (getHit world r lit_0_001 FLT_MAX) as [[index hit] | ] eqn:Hq; [ | eauto].
  destruct (Hvalid _ _ _ Hq) as [obj Hobj]. rewrite Hobj. cbv zeta.
  destruct (Z_lt_dec n maxBounceDepth) as [Hlt | Hge]; [ | eauto].
  destruct (scatter (getMaterial obj) r hit g) as [[[a sc] | ] g1]; [ | eauto].
  destruct (IH (bounces_left (n + 1))) with (r := sc) (n := n + 1) (g := g1)
    as (c & g2 & Hrec); [ | reflexivity | ].
  - subst k. unfold bounces_left, maxBounceDepth in *. lia.
  - rewrite Hrec. eauto.
Qed.

(** X7: line 126 dereferences [world.getObject(index)] unchecked.  When
    the collection reports only indexes it holds an object for, [color]
    returns a radiance for every ray, at every depth and from every
    generator. *)
Theorem color_returns world :
  (forall r index hit,
      getHit world r lit_0_001 FLT_MAX = Some (index, hit) ->
      exists obj, getObject world index = Some obj) ->
  forall r n g, exists c g', color getHit getObject getMaterial world r n g = Some (c, g').
Proof. apply color_total. Qed.
End IntegratorReturns.

(** ** A scene without a light *)

Section Darkness.
Variables prec emax : Z.
Let format : Scalar IEEE.float := IEEE.scalar prec emax.
#[local] Existing Instance format | 0.
Variable Rng : Type.
Variables World Object : Type.
Variable getHit : World -> Ray IEEE.float -> IEEE.float -> IEEE.float
                  -> option (nat * Hit IEEE.float).
Variable getObject : World -> nat -> option Object.
Variable getMaterial : Object -> Material IEEE.float Rng.

Lemma SFadd_zero x y :
  is_zero x = true -> is_zero y = true -> is_zero (SFadd prec emax x y) = true.
Proof.
  destruct x as [sx | | | ]; try discriminate.
  destruct y as [sy | | | ]; try discriminate.
  intros _ _. destruct sx, sy; reflexivity.
Qed.

Lemma SFmul_zero a x :
  IEEE.nonneg_real a = true -> is_zero x = true ->
  is_zero (SFmul prec emax a x) = true.
Proof.
  destruct x as [sx | | | ]; try discriminate.
  destruct a as [sa | | | sa ma ea]; try discriminate; reflexivity.
Qed.

Lemma vadd_vmul_zero (e a c : Vec3 IEEE.float) :
  vall is_zero e = true -> vall IEEE.nonneg_real a = true -> vall is_zero c = true ->
  vall is_zero (vadd e (vmul a c)) = true.
Proof.
  rewrite !vall_true. cbn.
  intros (? & ? & ?) (? & ? & ?) (? & ? & ?).
  repeat split; apply SFadd_zero; try apply SFmul_zero; assumption.
Qed.

Lemma color_zero world r n g c g' :
  world_contract getObject getMaterial world ->
  no_emission getObject getMaterial world ->
  color getHit getObject getMaterial world r n g = Some (c, g') ->
  vall is_zero c = true.
Proof.
  intros Hw Hdark. revert c g'.
  remember (bounces_left n) as k eqn:Hk. revert r n g Hk.
  induction k as [k IH] using lt_wf_ind. intros r n g Hk c g'.
  rewrite color_equation_1.
  destruct (getHit world r lit_0_001 FLT_MAX) as [[index hit] | ];
    [ | intros [= <- _]; reflexivity].
  destruct (getObject world index) as [obj | ] eqn:Hobj; [ | discriminate].
  destruct (Hw index obj Hobj) as [_ Hsc]. cbv zeta.
  pose proof (Hdark index obj Hobj f0 f0 vzero) as He.
  destruct (Z_lt_dec n maxBounceDepth) as [Hlt | Hge]; [ | intros [= <- _]; exact He].
  destruct (scatter (getMaterial obj) r hit g) as [[[a s] | ] g1] eqn:Hs;
    [ | intros [= <- _]; exact He].
  destruct (color getHit getObject getMaterial world s (n + 1) g1) as [[c1 g2] | ] eqn:Hrec;
    [ | discriminate].
  intros [= <- _]. apply vadd_vmul_zero.
  - exact He.
  - eapply Hsc. exact Hs.
  - eapply (IH (bounces_left (n + 1))); [ | reflexivity | exact Hrec].
    subst k. unfold bounces_left, maxBounceDepth in *. lia.
Qed.

(** X8: in a world where nothing emits and every attenuation is a
    non-negative real number, every component of the radiance is a zero, in
    every binary format: the colour of a miss is black, so light comes from
    emitters only. *)
Theorem color_without_light world r n g c g' :
  world_contract getObject getMaterial world ->
  no_emission getObject getMaterial world ->
  color getHit getObject getMaterial world r n g = Some (c, g') ->
  vall is_zero c = true.
Proof. apply color_zero. Qed.
End Darkness.

(** ** The cells the loops write *)

Section RenderFacts.
Context {F Dbl : Type} `{Scalar F} `{Display F Dbl}.
Variable Rng : Type.
Variables World Object Camera : Type.
Variable getHit : World -> Ray F -> F -> F -> option (nat * Hit F).
Variable getObject : World -> nat -> option Object.
Variable getMaterial : Object -> Material F Rng.
Variable drand48 : Rng -> Dbl * Rng.
Variable getRay : Camera -> F -> F -> Rng -> Ray F * Rng.
Variables nx ny ns : Z.
Variable cam : Camera.
Variable world : World.

Local Abbreviation samples' :=
  (samples getHit getObject getMaterial drand48 getRay nx ny cam world).
Local Abbreviation row_loop' :=
  (row_loop getHit getObject getMaterial drand48 getRay nx ny ns cam world).
Local Abbreviation image_loop' :=
  (image_loop getHit getObject getMaterial drand48 getRay nx ny ns cam world).
Local Abbreviation render' :=
  (render getHit getObject getMaterial drand48 getRay nx ny ns cam world).
Local Abbreviation written' :=
  (written getHit getObject getMaterial drand48 getRay nx ny ns cam world).

(** The loop over [y] leaves alone the rows it does not visit and the
    columns outside [0 .. nx - 1]. *)
Lemma image_loop_keeps k :
  forall y image g image' g',
    image_loop' k y image g = Some (image', g') ->
    forall y' x', y < y' \/ y' <= y - Z.of_nat k \/ x' < 0 \/ nx <= x' ->
      image' y' x' = image y' x'.
Proof.
  induction k as [ | k IH]; intros y image g image' g'; cbn [image_loop].
  - now intros [= <- _].
  - destruct (row_loop' (Z.to_nat nx) 0 y image g) as [[image1 g1] | ] eqn:Hrow;
      [ | discriminate].
    apply row_loop_writes in Hrow. destruct Hrow as [Hrkeep _].
    intros Himg y' x' Hout. rewrite (@IH _ _ _ _ _ Himg) by lia.
    apply Hrkeep. lia.
Qed.

(** X12: the loops write inside the array [image[ny][nx]] only: a cell
    that holds a pixel after the render has [0 <= x < nx] and
    [0 <= y < ny]. *)
Theorem render_writes_inside_image g (image : Image) g' x y :
  render getHit getObject getMaterial drand48 getRay nx ny ns cam world g
  = Some (image, g') ->
  image y x <> None ->
  0 <= x < nx /\ 0 <= y < ny.
Proof.
  unfold render. intros Hr Hcell.
  pose proof (@image_loop_keeps _ _ _ _ _ _ Hr y x) as Hkeep.
  destruct (Z_lt_dec x 0); [now rewrite Hkeep in Hcell by lia | ].
  destruct (Z_le_dec nx x); [now rewrite Hkeep in Hcell by lia | ].
  destruct (Z_lt_dec y 0); [now rewrite Hkeep in Hcell by lia | ].
  destruct (Z_le_dec ny y); [now rewrite Hkeep in Hcell by lia | ].
  lia.
Qed.

(** X16: line 197 shares the rows out among the threads.  In whatever
    order the rows are rendered, one whole row at a time, the rows not
    taken keep their cells, and every pixel of a row taken holds the
    displayed mean of [ns] values of [color] on sample rays of that pixel:
    the order changes which numbers the generator hands to a pixel, not
    what is done with them. *)
Theorem rows_loop_writes ys :
  forall image g image' g',
    rows_loop getHit getObject getMaterial drand48 getRay nx ny ns cam world ys image g
    = Some (image', g') ->
    (forall y x, ~ In y ys -> image' y x = image y x)
    /\ (forall y x, In y ys -> 0 <= x < nx -> written' (image' y x) x y).
Proof.
  induction ys as [ | y0 ys IH]; intros image g image' g'; cbn [rows_loop].
  - intros [= <- _]. split; [reflexivity | intros y x []].
  - destruct (row_loop' (Z.to_nat nx) 0 y0 image g) as [[image1 g1] | ] eqn:Hrow;
      [ | discriminate].
    apply row_loop_writes in Hrow. destruct Hrow as [Hrkeep Hrnew].
    intros Hrest. apply IH in Hrest. destruct Hrest as [Hkeep Hnew]. split.
    + intros y x Hout. rewrite Hkeep by (intros Hin; apply Hout; now right).
      apply Hrkeep. left. intros ->. apply Hout. now left.
    + intros y x Hin Hx. destruct (in_dec Z.eq_dec y ys) as [Hlater | Hnot].
      * now apply Hnew.
      * destruct Hin as [<- | Hin]; [ | contradiction].
        rewrite Hkeep by exact Hnot. apply Hrnew. lia.
Qed.
End RenderFacts.

(** ** The file [writeImage] leaves *)

Section ImageBytes.
Import Bitmap.

Lemma holds_app_r a b n p :
  0 <= n -> holds b n p -> holds (a ++ b) (Z.of_nat (length a) + n) p.
Proof.
  intros Hn (H0 & H1 & H2). unfold holds.
  rewrite <- !Z.add_assoc, !byte_at_app_r by lia. auto.
Qed.

Lemma holds_app_l a b n p :
  n + 2 < Z.of_nat (length a) -> holds a n p -> holds (a ++ b) n p.
Proof.
  intros Hn (H0 & H1 & H2). unfold holds.
  rewrite !byte_at_app_l by lia. auto.
Qed.

Lemma row_bytes_cells k :
  forall x row bytes,
    row_bytes k x row = Some bytes ->
    Z.of_nat (length bytes) = 3 * Z.of_nat k
    /\ forall x', x <= x' < x + Z.of_nat k ->
         exists p, row x' = Some p /\ holds bytes (3 * (x' - x)) p.
Proof.
  induction k as [ | k IH]; intros x row bytes; cbn [row_bytes].
  - intros [= <-]. split; [reflexivity | lia].
  - destruct (row x) as [p | ] eqn:Hp; [ | discriminate].
    destruct (row_bytes k (x + 1) row) as [rest | ] eqn:Hrest; [ | discriminate].
    intros [= <-]. apply IH in Hrest. destruct Hrest as [Hlen Hcells].
    split; [cbn [pixel_bytes length app]; lia | ].
    intros x' Hx'. destruct (Z.eq_dec x' x) as [-> | Hne].
    + exists p. split; [exact Hp | ].
      rewrite Z.sub_diag. repeat split.
    + destruct (Hcells x' ltac:(lia)) as (q & Hq & Hholds).
      exists q. split; [exact Hq | ].
      replace (3 * (x' - x)) with (Z.of_nat (length (pixel_bytes p)) + 3 * (x' - (x + 1)))
        by (cbn [pixel_bytes length]; lia).
      apply (@holds_app_r (pixel_bytes p) rest); [lia | exact Hholds].
Qed.

Lemma row_bytes_total k :
  forall x row,
    (forall x', x <= x' < x + Z.of_nat k -> row x' <> None) ->
    exists bytes, row_bytes k x row = Some bytes.
Proof.
  induction k as [ | k IH]; intros x row Hrow; cbn [row_bytes]; [eauto | ].
  destruct (row x) as [p | ] eqn:Hp; [ | now destruct (Hrow x ltac:(lia))].
  destruct (IH (x + 1) row) as [rest ->]; [intros x' Hx'; apply Hrow; lia | eauto].
Qed.

Lemma image_bytes_cells nx image k :
  forall y bytes,
    0 <= nx ->
    image_bytes k y nx image = Some bytes ->
    Z.of_nat (length bytes) = Z.of_nat k * (3 * nx)
    /\ forall y' x', y <= y' < y + Z.of_nat k -> 0 <= x' < nx ->
         exists p, image y' x' = Some p
                   /\ holds bytes ((y' - y) * (3 * nx) + 3 * x') p.
Proof.
  induction k as [ | k IH]; intros y bytes Hnx; cbn [image_bytes].
  - intros [= <-]. split; [reflexivity | lia].
  - destruct (row_bytes (Z.to_nat nx) 0 (image y)) as [row | ] eqn:Hrow; [ | discriminate].
    destruct (image_bytes k (y + 1) nx image) as [rest | ] eqn:Hrest; [ | discriminate].
    intros [= <-]. apply IH in Hrest; [ | exact Hnx]. destruct Hrest as [Hlen Hcells].
    apply row_bytes_cells in Hrow. destruct Hrow as [Hrlen Hrcells].
    split; [rewrite length_app; lia | ].
    intros y' x' Hy' Hx'. destruct (Z.eq_dec y' y) as [-> | Hne].
    + destruct (Hrcells x' ltac:(lia)) as (p & Hp & Hholds).
      exists p. split; [exact Hp | ].
      rewrite Z.sub_diag, Z.mul_0_l, Z.add_0_l. rewrite Z.sub_0_r in Hholds.
      apply holds_app_l; [lia | exact Hholds].
    + destruct (Hcells y' x' ltac:(lia) Hx') as (p & Hp & Hholds).
      exists p. split; [exact Hp | ].
      replace ((y' - y) * (3 * nx) + 3 * x')
        with (Z.of_nat (length row) + ((y' - (y + 1)) * (3 * nx) + 3 * x')) by lia.
      apply holds_app_r; [nia | exact Hholds].
Qed.

Lemma image_bytes_total nx image k :
  forall y,
    (forall y' x', y <= y' < y + Z.of_nat k -> 0 <= x' < nx -> image y' x' <> None) ->
    exists bytes, image_bytes k y nx image = Some bytes.
Proof.
  induction k as [ | k IH]; intros y Hcells; cbn [image_bytes]; [eauto | ].
  destruct (@row_bytes_total (Z.to_nat nx) 0 (image y)) as [row ->];
    [intros x' Hx'; apply Hcells; lia | ].
  destruct (IH (y + 1)) as [rest ->]; [intros y' x' Hy' Hx'; apply Hcells; lia | eauto].
Qed.
End ImageBytes.

Section OutputFacts.
Import Bitmap.
Context {F Dbl : Type} `{Scalar F} `{Display F Dbl}.
Variable Rng : Type.
Variables World Object Camera : Type.
Variable getHit : World -> Ray F -> F -> F -> option (nat * Hit F).
Variable getObject : World -> nat -> option Object.
Variable getMaterial : Object -> Material F Rng.
Variable drand48 : Rng -> Dbl * Rng.
Variable getRay : Camera -> F -> F -> Rng -> Ray F * Rng.
Variables nx ny ns : Z.
Variable cam : Camera.
Variable world : World.

Local Abbreviation samples' :=
  (samples getHit getObject getMaterial drand48 getRay nx ny cam world).
Local Abbreviation sample_loop' :=
  (sample_loop getHit getObject getMaterial drand48 getRay nx ny cam world).
Local Abbreviation row_loop' :=
  (row_loop getHit getObject getMaterial drand48 getRay nx ny ns cam world).
Local Abbreviation image_loop' :=
  (image_loop getHit getObject getMaterial drand48 getRay nx ny ns cam world).

(** X13: a file that [writeImage] has written has [54 + stride * ny]
    bytes; the pixel [(x, y)] lies at [54 + y * stride + 3 * x], its blue
    byte first, then green, then red, each the displayed mean of the
    samples of the pixel.  Row 0 of the image, the one of the smallest
    [v], comes first in the file. *)
Theorem writeImage_file writable stack fileHeader infoHeader g file g' :
  fileHeader_state fileHeader ->
  infoHeader_state infoHeader ->
  0 <= nx -> 3 * nx + 3 < 2 ^ 31 ->
  0 <= ny < 2 ^ 31 -> 54 + stride nx * ny < 2 ^ 31 ->
  writeImage getHit getObject getMaterial drand48 getRay nx ny ns cam world
    writable stack fileHeader infoHeader g = Some (file, g') ->
  Z.of_nat (length file) = 54 + stride nx * ny
  /\ forall x y, 0 <= x < nx -> 0 <= y < ny ->
       exists gxy cs g2,
         samples' (Z.to_nat ns) x y gxy = Some (cs, g2)
         /\ holds file (54 + y * stride nx + 3 * x) (displayed_pixel ns cs).
Proof.
  intros Hfh Hih Hnx Hfit Hny Hsize. unfold writeImage.
  destruct (ny * nx * BYTES_PER_PIXEL <=? stack); [ | discriminate].
  destruct (render getHit getObject getMaterial drand48 getRay nx ny ns cam world g)
    as [[image g1] | ] eqn:Hr; [ | discriminate].
  destruct (image_bytes (Z.to_nat ny) 0 nx image) as [bytes | ] eqn:Hbytes; [ | discriminate].
  destruct (generateBitmapImage writable fileHeader infoHeader bytes ny nx
              WriteImage.imageFileName) as [file' | ] eqn:Hfile; [ | discriminate].
  intros [= <- <-].
  unfold render in Hr. apply image_loop_writes in Hr. destruct Hr as [_ Hnew].
  apply image_bytes_cells in Hbytes; [ | exact Hnx]. destruct Hbytes as [_ Hcells].
  apply generateBitmapImage_some in Hfile; try assumption.
  destruct Hfile as (_ & Hflen & _ & _ & Hpixels).
  split; [exact Hflen | ].
  intros x y Hx Hy.
  destruct (Hnew y x ltac:(lia) Hx) as (gxy & cs & g2 & Hs & _ & Hcell).
  exists gxy, cs, g2. split; [exact Hs | ].
  destruct (Hcells y x ltac:(lia) Hx) as (p & Hp & Hb0 & Hb1 & Hb2).
  rewrite Hcell in Hp. injection Hp as <-.
  rewrite Z.sub_0_r in Hb0, Hb1, Hb2.
  destruct (@stride_multiple nx Hnx Hfit) as (Hstride & Hpad & _).
  unfold holds.
  rewrite <- (Z.add_assoc (54 + y * stride nx) (3 * x) 1).
  rewrite <- (Z.add_assoc (54 + y * stride nx) (3 * x) 2).
  rewrite !Hpixels by lia.
  destruct (Z.ltb_spec (3 * x) (3 * nx)); [ | lia].
  destruct (Z.ltb_spec (3 * x + 1) (3 * nx)); [ | lia].
  destruct (Z.ltb_spec (3 * x + 2) (3 * nx)); [ | lia].
  rewrite !Z.add_assoc. auto.
Qed.

Hypothesis index_valid :
  forall r index hit,
    getHit world r lit_0_001 FLT_MAX = Some (index, hit) ->
    exists obj, getObject world index = Some obj.

Lemma sample_loop_returns k :
  forall x y px g, exists sum g', sample_loop' k x y px g = Some (sum, g').
Proof.
  induction k as [ | k IH]; intros x y px g; cbn [sample_loop]; [eauto | ].
  destruct (sample_ray drand48 getRay nx ny cam x y g) as [r g1].
  destruct (@color_total _ _ _ _ _ getHit getObject getMaterial world index_valid r 0 g1)
    as (c & g2 & ->).
  apply IH.
Qed.

Lemma row_loop_returns k :
  forall x y image g, exists image' g', row_loop' k x y image g = Some (image', g').
Proof.
  induction k as [ | k IH]; intros x y image g; cbn [row_loop]; [eauto | ].
  unfold render_pixel.
  destruct (sample_loop_returns (Z.to_nat ns) x y vzero g) as (sum & g1 & ->).
  apply IH.
Qed.

Lemma image_loop_returns k :
  forall y image g, exists image' g', image_loop' k y image g = Some (image', g').
Proof.
  induction k as [ | k IH]; intros y image g; cbn [image_loop]; [eauto | ].
  destruct (row_loop_returns (Z.to_nat nx) 0 y image g) as (image1 & g1 & ->).
  apply IH.
Qed.

End OutputFacts.

(** ** Pixels at the edges of float arithmetic *)

Lemma SFadd_not_finite prec emax x y :
  not_finite x = true \/ not_finite y = true ->
  not_finite (SFadd prec emax x y) = true.
Proof.
  intros [Hx | Hy].
  - destruct x as [ | sx | | ]; try discriminate;
      destruct y as [ | sy | | ]; try reflexivity.
    destruct sx, sy; reflexivity.
  - destruct y as [ | sy | | ]; try discriminate;
      destruct x as [ | sx | | ]; try reflexivity.
    destruct sx, sy; reflexivity.
Qed.

Lemma SFdiv_not_finite prec emax x y :
  not_finite x = true -> not_finite (SFdiv prec emax x y) = true.
Proof. destruct x; try discriminate; destruct y; reflexivity. Qed.

Lemma SFdiv_zero prec emax x y :
  is_zero x = true -> IEEE.positive_real y = true ->
  is_zero (SFdiv prec emax x y) = true.
Proof.
  destruct x; try discriminate. destruct y as [ | | | [ | ] m e]; try discriminate.
  reflexivity.
Qed.

Section Display32.
Local Abbreviation displayed32 :=
  (@displayed Binary32.float Binary64.double display32).
Local Abbreviation displayed_pixel32 :=
  (@displayed_pixel Binary32.float Binary64.double binary32 display32).

Lemma displayed_not_finite x : not_finite x = true -> displayed32 x = 255.
Proof. destruct x as [ | [ | ] | | ]; try discriminate; intros _; vm_compute; reflexivity. Qed.

Lemma displayed_zero x : is_zero x = true -> displayed32 x = 0.
Proof. destruct x as [[ | ] | | | ]; try discriminate; intros _; vm_compute; reflexivity. Qed.

Lemma fold_vadd_not_finite (proj : Vec3 Binary32.float -> Binary32.float) :
  (forall a b, proj (vadd a b) = fadd (proj a) (proj b)) ->
  forall cs acc,
    not_finite (proj acc) = true \/ (exists c, In c cs /\ not_finite (proj c) = true) ->
    not_finite (proj (fold_left vadd cs acc)) = true.
Proof.
  intros Hproj. induction cs as [ | c cs IH]; intros acc Hsome; cbn [fold_left].
  - destruct Hsome as [Hacc | (c & [] & _)]. exact Hacc.
  - apply IH. destruct Hsome as [Hacc | (c' & [<- | Hin] & Hc')].
    + left. rewrite Hproj. apply SFadd_not_finite. now left.
    + left. rewrite Hproj. apply SFadd_not_finite. now right.
    + right. eauto.
Qed.

(** X10: a sample with an infinite or NaN component decides the byte of
    that channel, whatever the other samples and the sample count are: the
    sum and the mean are not finite either, [sqrt] and the product keep
    them so or turn them into a NaN, and [fmin (255.0, ...)] answers 255
    to plus infinity and to a NaN. *)
Theorem not_finite_sample_is_white ns cs c :
  In c cs ->
  (not_finite (vx c) = true -> byte2 (displayed_pixel32 ns cs) = 255)
  /\ (not_finite (vy c) = true -> byte1 (displayed_pixel32 ns cs) = 255)
  /\ (not_finite (vz c) = true -> byte0 (displayed_pixel32 ns cs) = 255).
Proof.
  intros Hin. unfold displayed_pixel, mean. cbn [byte0 byte1 byte2 vdiv vx vy vz].
  repeat split; intros Hc; apply displayed_not_finite, SFdiv_not_finite.
  - apply (@fold_vadd_not_finite (@vx _)); [reflexivity | eauto].
  - apply (@fold_vadd_not_finite (@vy _)); [reflexivity | eauto].
  - apply (@fold_vadd_not_finite (@vz _)); [reflexivity | eauto].
Qed.
End Display32.

Section Render32.
Variable Rng : Type.
Variables World Object Camera : Type.
Variable getHit : World -> Ray Binary32.float -> Binary32.float -> Binary32.float
                  -> option (nat * Hit Binary32.float).
Variable getObject : World -> nat -> option Object.
Variable getMaterial : Object -> Material Binary32.float Rng.
Variable drand48 : Rng -> Binary64.double * Rng.
Variable getRay : Camera -> Binary32.float -> Binary32.float -> Rng
                  -> Ray Binary32.float * Rng.
Variables nx ny : Z.
Variable cam : Camera.
Variable world : World.

Local Abbreviation color32 :=
  (@color Binary32.float binary32 Rng World Object getHit getObject getMaterial world).
Local Abbreviation samples32 :=
  (@samples Binary32.float Binary64.double binary32 display32 Rng World Object Camera
     getHit getObject getMaterial drand48 getRay nx ny cam world).
Local Abbreviation row_loop32 ns :=
  (@row_loop Binary32.float Binary64.double binary32 display32 Rng World Object Camera
     getHit getObject getMaterial drand48 getRay nx ny ns cam world).
Local Abbreviation image_loop32 ns :=
  (@image_loop Binary32.float Binary64.double binary32 display32 Rng World Object Camera
     getHit getObject getMaterial drand48 getRay nx ny ns cam world).
Local Abbreviation render32 ns :=
  (@render Binary32.float Binary64.double binary32 display32 Rng World Object Camera
     getHit getObject getMaterial drand48 getRay nx ny ns cam world).
Local Abbreviation pixel32 ns cs :=
  (@displayed_pixel Binary32.float Binary64.double binary32 display32 ns cs).

Lemma row_loop_no_samples k :
  forall x y image g, exists image', row_loop32 0 k x y image g = Some (image', g).
Proof.
  induction k as [ | k IH]; intros x y image g; cbn [row_loop]; [eauto | ].
  unfold render_pixel. cbn [Z.to_nat sample_loop]. apply IH.
Qed.

Lemma image_loop_no_samples k :
  forall y image g, exists image', image_loop32 0 k y image g = Some (image', g).
Proof.
  induction k as [ | k IH]; intros y image g; cbn [image_loop]; [eauto | ].
  destruct (row_loop_no_samples (Z.to_nat nx) 0 y image g) as [image1 ->]. apply IH.
Qed.

(** X11: with no sample per pixel the loops never trace a ray and leave
    the generator alone; the mean is [0 / 0], a NaN, and every pixel of the
    image is stored as [(255, 255, 255)]. *)
Theorem render_without_samples g :
  exists image,
    render32 0 g = Some (image, g)
    /\ forall x y, 0 <= x < nx -> 0 <= y < ny -> image y x = Some white.
Proof.
  unfold render.
  destruct (image_loop_no_samples (Z.to_nat ny) (ny - 1) (fun _ _ => None) g)
    as [image Himage].
  exists image. split; [exact Himage | ].
  intros x y Hx Hy. apply image_loop_writes in Himage. destruct Himage as [_ Hnew].
  destruct (Hnew y x ltac:(lia) Hx) as (gxy & cs & g2 & Hs & _ & ->).
  cbn [Z.to_nat samples] in Hs. injection Hs as <- _.
  vm_compute. reflexivity.
Qed.

Lemma samples_all (P : Vec3 Binary32.float -> Prop) k :
  (forall r g c g', color32 r 0 g = Some (c, g') -> P c) ->
  forall x y g cs g', samples32 k x y g = Some (cs, g') -> Forall P cs.
Proof.
  intros Hcolor. induction k as [ | k IH]; intros x y g cs g'; cbn [samples].
  - intros [= <- _]. constructor.
  - destruct (sample_ray drand48 getRay nx ny cam x y g) as [r g1].
    destruct (color32 r 0 g1) as [[c g2] | ] eqn:Hc; [ | discriminate].
    destruct (samples32 k x y g2) as [[cs' g3] | ] eqn:Hs; [ | discriminate].
    intros [= <- _]. constructor; [eapply Hcolor; exact Hc | eapply IH; exact Hs].
Qed.

Lemma fold_vadd_zero cs :
  forall acc : Vec3 Binary32.float,
    vall is_zero acc = true ->
    Forall (fun c => vall is_zero c = true) cs ->
    vall is_zero (fold_left vadd cs acc) = true.
Proof.
  induction cs as [ | c cs IH]; intros acc Hacc Hcs; cbn [fold_left]; [exact Hacc | ].
  inversion Hcs as [ | c' cs' Hc Hrest]; subst. apply IH; [ | exact Hrest].
  revert Hacc Hc. rewrite !vall_true. cbn.
  intros (? & ? & ?) (? & ? & ?). repeat split; now apply SFadd_zero.
Qed.

(** X9: a world without a light, whose materials keep their contract,
    renders to black: every pixel of the image is stored as [(0, 0, 0)],
    for every positive sample count. *)
Theorem render_without_light ns g image g' :
  world_contract getObject getMaterial world ->
  no_emission getObject getMaterial world ->
  IEEE.positive_real (of_int ns) = true ->
  render32 ns g = Some (image, g') ->
  forall x y, 0 <= x < nx -> 0 <= y < ny -> image y x = Some black.
Proof.
  intros Hw Hdark Hns Hr x y Hx Hy. unfold render in Hr.
  apply image_loop_writes in Hr. destruct Hr as [_ Hnew].
  destruct (Hnew y x ltac:(lia) Hx) as (gxy & cs & g2 & Hs & _ & ->).
  apply (@samples_all (fun c => vall is_zero c = true)) in Hs.
  - assert (vall is_zero (mean ns cs) = true) as Hmean.
    { pose proof (@fold_vadd_zero cs vzero eq_refl Hs) as Hsum.
      revert Hsum. unfold mean. rewrite !vall_true. cbn [vdiv vx vy vz].
      intros (? & ? & ?). repeat split; now apply SFdiv_zero. }
    revert Hmean. rewrite vall_true. intros (Hx0 & Hy0 & Hz0).
    unfold displayed_pixel, black. f_equal.
    f_equal; apply displayed_zero; assumption.
  - intros r g0 c g0' Hc.
    eapply (@color_zero Binary32.prec Binary32.emax); eassumption.
Qed.
End Render32.

(** ** The bitmap writer and the driver on example inputs *)

(** A row of five pixels takes 15 bytes and one of padding. *)
Lemma stride_is_padded_witness :
  Bitmap.stride 5 = 16
  /\ Bitmap.stride 5 = Bitmap.widthInBytes 5 + Bitmap.paddingSize 5
  /\ Bitmap.widthInBytes 5 = 3 * 5
  /\ 0 <= Bitmap.paddingSize 5 < 4
  /\ Bitmap.stride 5 mod 4 = 0.
Proof.
  split; [reflexivity | ].
  exact (@stride_is_padded 5 ltac:(lia) ltac:(lia)).
Defined.

(** The header of the image of [main.cc], 1920 by 1080 pixels: the file
    has 6220854 bytes. *)
Lemma createBitmapFileHeader_fields_witness :
  Bitmap.fileHeader_state Bitmap.fileHeader_static
  /\ 0 <= 54 + 5760 * 1080 < 2 ^ 31
  /\ Bitmap.le32 (Bitmap.createBitmapFileHeader Bitmap.fileHeader_static 1080 5760) 2
     = 6220854.
Proof.
  split; [exact Bitmap.fileHeader_fresh | ]. split; [lia | ].
  exact (proj1 (proj2 (proj2 (proj2
           (@createBitmapFileHeader_fields Bitmap.fileHeader_static 1080 5760
              Bitmap.fileHeader_fresh ltac:(lia)))))).
Defined.

(** The information header written a second time, for another image. *)
Lemma createBitmapInfoHeader_fields_witness :
  let used := Bitmap.createBitmapInfoHeader Bitmap.infoHeader_static 1080 1920 in
  Bitmap.createBitmapInfoHeader used 2 3
  = Bitmap.createBitmapInfoHeader Bitmap.infoHeader_static 2 3.
Proof.
  exact (proj1 (@createBitmapInfoHeader_fields
                  (Bitmap.createBitmapInfoHeader Bitmap.infoHeader_static 1080 1920) 2 3
                  (Bitmap.infoHeader_reused 1080 1920 Bitmap.infoHeader_fresh)
                  ltac:(lia) ltac:(lia))).
Defined.

(** An image of two rows of two pixels: the file has 54 bytes of headers
    and two rows of six bytes and two of padding. *)
Lemma generateBitmapImage_header_witness :
  exists file,
    Bitmap.generateBitmapImage Outputs.everywhere Bitmap.fileHeader_static
      Bitmap.infoHeader_static Outputs.ramp 2 2 WriteImage.imageFileName = Some file
    /\ Z.of_nat (length file) = 54 + Bitmap.stride 2 * 2
    /\ Bitmap.le32 file 2 = Z.of_nat (length file)
    /\ Bitmap.le32 file 10 = 54
    /\ Bitmap.le32 file 14 = 40
    /\ Bitmap.le32 file 18 = 2
    /\ Bitmap.le32 file 22 = 2
    /\ Bitmap.le16 file 26 = 1
    /\ Bitmap.le16 file 28 = 24.
Proof.
  eexists. split; [vm_compute; reflexivity | ].
  apply (@generateBitmapImage_header Outputs.everywhere Bitmap.fileHeader_static
           Bitmap.infoHeader_static Outputs.ramp 2 2 WriteImage.imageFileName
           Bitmap.fileHeader_fresh Bitmap.infoHeader_fresh);
    [lia | lia | lia | change (Bitmap.stride 2) with 8; lia | vm_compute; reflexivity].
Defined.

(** In that file the second pixel of the second row starts at byte 65, and
    the two bytes after the row are zeros. *)
Lemma generateBitmapImage_pixels_witness :
  exists file,
    Bitmap.generateBitmapImage Outputs.everywhere Bitmap.fileHeader_static
      Bitmap.infoHeader_static Outputs.ramp 2 2 WriteImage.imageFileName = Some file
    /\ Bitmap.byte_at file (54 + 1 * Bitmap.stride 2 + 3) = Some 10
    /\ Bitmap.byte_at file (54 + 1 * Bitmap.stride 2 + 6) = Some 0.
Proof.
  eexists. split; [vm_compute; reflexivity | ].
  split.
  - apply (@generateBitmapImage_pixels Outputs.everywhere Bitmap.fileHeader_static
             Bitmap.infoHeader_static Outputs.ramp 2 2 WriteImage.imageFileName
             Bitmap.fileHeader_fresh Bitmap.infoHeader_fresh
             ltac:(lia) ltac:(lia) ltac:(lia)
             ltac:(change (Bitmap.stride 2) with 8; lia) _ eq_refl 1 3);
      [lia | change (Bitmap.stride 2) with 8; lia].
  - vm_compute. reflexivity.
Defined.

(** Three rows of two pixels do not fit in an array of twelve bytes: the
    third row would be read past its end.  And where no file can be opened
    even an image without a row has no defined result. *)
Lemma generateBitmapImage_defined_witness :
  Bitmap.generateBitmapImage Outputs.everywhere Bitmap.fileHeader_static
    Bitmap.infoHeader_static Outputs.ramp 3 2 WriteImage.imageFileName = None
  /\ Bitmap.generateBitmapImage Outputs.nowhere Bitmap.fileHeader_static
       Bitmap.infoHeader_static Outputs.ramp 0 2 WriteImage.imageFileName = None.
Proof.
  split.
  - apply (@generateBitmapImage_defined Outputs.everywhere Bitmap.fileHeader_static
             Bitmap.infoHeader_static Outputs.ramp 3 2 WriteImage.imageFileName
             Bitmap.fileHeader_fresh Bitmap.infoHeader_fresh
             ltac:(lia) ltac:(lia) ltac:(lia)
             ltac:(change (Bitmap.stride 2) with 8; lia)).
    right. cbn [length Outputs.ramp]. lia.
  - apply (@generateBitmapImage_defined Outputs.nowhere Bitmap.fileHeader_static
             Bitmap.infoHeader_static Outputs.ramp 0 2 WriteImage.imageFileName
             Bitmap.fileHeader_fresh Bitmap.infoHeader_fresh
             ltac:(lia) ltac:(lia) ltac:(lia)
             ltac:(change (Bitmap.stride 2) with 8; lia)).
    left. reflexivity.
Defined.

(** A collection of spheres reports the index of a sphere it holds, so the
    probe ray of the overlapping spheres has a radiance. *)
Lemma color_returns_witness :
  exists c g', trace Scenes.overlapping Scenes.probe 0 0 = Some (c, g').
Proof.
  exact (@color_returns Scenes.F binary32 Scenes.Rng _ _
           (@ObjCollection_getHit Scenes.F binary32 Scenes.Rng)
           (@ObjCollection_getObject Scenes.F Scenes.Rng)
           (@sphere_material Scenes.F Scenes.Rng) Scenes.overlapping
           (fun r index hit Hq => proj1 (getHit_index_and_bound _ _ _ _ Hq))
           Scenes.probe 0 0).
Defined.

Lemma mirror_world_contract :
  world_contract (@ObjCollection_getObject Scenes.F Scenes.Rng)
    (@sphere_material Scenes.F Scenes.Rng) Outputs.mirror_world.
Proof.
  intros [ | index] obj; unfold ObjCollection_getObject, Outputs.mirror_world;
    cbn [nth_error]; try (destruct index; discriminate); intros [= <-]; cbn [sphere_material].
  apply (@Metal_contract Binary32.prec Binary32.emax). reflexivity.
Qed.

Lemma mirror_world_dark :
  no_emission (@ObjCollection_getObject Scenes.F Scenes.Rng)
    (@sphere_material Scenes.F Scenes.Rng) Outputs.mirror_world.
Proof.
  intros [ | index] obj; unfold ObjCollection_getObject, Outputs.mirror_world;
    cbn [nth_error]; try (destruct index; discriminate); intros [= <-] u v p.
  reflexivity.
Qed.

(** The probe ray is sent back by the mirror and meets nothing. *)
Lemma color_without_light_witness :
  trace Outputs.mirror_world Scenes.probe 0 0 = Some (vzero, 0)
  /\ vall is_zero (@vzero Scenes.F binary32) = true.
Proof.
  assert (trace Outputs.mirror_world Scenes.probe 0 0 = Some (vzero, 0)) as Hc
    by (vm_compute; reflexivity).
  split; [exact Hc | ].
  exact (@color_without_light Binary32.prec Binary32.emax Scenes.Rng _ _
           (@ObjCollection_getHit Scenes.F binary32 Scenes.Rng)
           (@ObjCollection_getObject Scenes.F Scenes.Rng)
           (@sphere_material Scenes.F Scenes.Rng)
           Outputs.mirror_world Scenes.probe 0 0 _ _
           mirror_world_contract mirror_world_dark Hc).
Defined.

(** The tiny render of the mirror: the pixel that shows the light in the
    render of module [Scenes] is black here. *)
Lemma render_without_light_witness :
  exists image g',
    Outputs.dark_render 0 = Some (image, g') /\ image 1 1 = Some black.
Proof.
  destruct (Outputs.dark_render 0) as [[image g'] | ] eqn:Hr;
    [ | exfalso; revert Hr; vm_compute; discriminate].
  exists image, g'. split; [reflexivity | ].
  exact (@render_without_light Scenes.Rng _ _ unit
           (@ObjCollection_getHit Scenes.F binary32 Scenes.Rng)
           (@ObjCollection_getObject Scenes.F Scenes.Rng)
           (@sphere_material Scenes.F Scenes.Rng)
           Binary64.drand48 Scenes.eye_ray 2 2 tt Outputs.mirror_world 2 0 image g'
           mirror_world_contract mirror_world_dark eq_refl Hr 1 1
           ltac:(lia) ltac:(lia)).
Defined.

(** The NaN radiance of the overflow scene among three samples. *)
Lemma not_finite_sample_is_white_witness :
  let cs := [Scenes.vec 1 1 1; mkVec3 IEEE.nan IEEE.nan IEEE.nan; Scenes.vec 0 0 0] in
  byte2 (@displayed_pixel Binary32.float Binary64.double binary32 display32 3 cs) = 255.
Proof.
  exact (proj1 (@not_finite_sample_is_white 3
                  [Scenes.vec 1 1 1; mkVec3 IEEE.nan IEEE.nan IEEE.nan; Scenes.vec 0 0 0]
                  (mkVec3 IEEE.nan IEEE.nan IEEE.nan)
                  (or_intror (or_introl eq_refl))) eq_refl).
Defined.

(** The cells of the tiny render lie in the two rows and two columns. *)
Lemma render_writes_inside_image_witness :
  exists image g',
    Scenes.tiny_render 0 = Some (image, g')
    /\ image 1 1 <> None
    /\ 0 <= 1 < 2 /\ 0 <= 1 < 2.
Proof.
  assert (option_map (fun ig : Image * Scenes.Rng => fst ig 1 1) (Scenes.tiny_render 0)
          = Some (Some {| byte0 := 180; byte1 := 180; byte2 := 180 |})) as Hpx
    by (vm_compute; reflexivity).
  destruct (Scenes.tiny_render 0) as [[image g'] | ] eqn:Hr; [ | discriminate].
  exists image, g'. split; [reflexivity | ].
  assert (image 1 1 <> None) as Hcell by (injection Hpx as ->; discriminate).
  split; [exact Hcell | ].
  exact (@render_writes_inside_image Scenes.F Binary64.double binary32 display32
           Scenes.Rng _ _ unit
           (@ObjCollection_getHit Scenes.F binary32 Scenes.Rng)
           (@ObjCollection_getObject Scenes.F Scenes.Rng)
           (@sphere_material Scenes.F Scenes.Rng)
           Binary64.drand48 Scenes.eye_ray 2 2 2 tt [Scenes.unit_sphere] 0 image g' 1 1
           Hr Hcell).
Defined.

(** The file of the tiny render: 70 bytes, the pixel [(1, 1)] at byte 65. *)
Lemma writeImage_file_witness :
  exists file g',
    Outputs.tiny_file 0 = Some (file, g')
    /\ Z.of_nat (length file) = 54 + Bitmap.stride 2 * 2
    /\ exists gxy cs g2,
         Scenes.tiny_samples 1 1 gxy = Some (cs, g2)
         /\ holds file (54 + 1 * Bitmap.stride 2 + 3 * 1) (displayed_pixel 2 cs).
Proof.
  destruct (Outputs.tiny_file 0) as [[file g'] | ] eqn:Hfile;
    [ | exfalso; revert Hfile; vm_compute; discriminate].
  exists file, g'. split; [reflexivity | ].
  destruct (@writeImage_file Scenes.F Binary64.double binary32 display32
              Scenes.Rng _ _ unit
              (@ObjCollection_getHit Scenes.F binary32 Scenes.Rng)
              (@ObjCollection_getObject Scenes.F Scenes.Rng)
              (@sphere_material Scenes.F Scenes.Rng)
              Binary64.drand48 Scenes.eye_ray 2 2 2 tt [Scenes.unit_sphere]
              Outputs.everywhere Outputs.megabyte
              Bitmap.fileHeader_static Bitmap.infoHeader_static 0 file g'
              Bitmap.fileHeader_fresh Bitmap.infoHeader_fresh
              ltac:(lia) ltac:(lia) ltac:(lia)
              ltac:(change (Bitmap.stride 2) with 8; lia) Hfile)
    as (Hlen & Hpixels).
  split; [exact Hlen | ].
  exact (Hpixels 1 1 ltac:(lia) ltac:(lia)).
Defined.

(** ** The scene of [main.cc] *)

Section CreateWorldFacts.
Variable Rng : Type.
Variable catalog : Catalog Rng.
Hypothesis catalog_ok : catalog_contract catalog.

Local Abbreviation getObject := (@ObjCollection_getObject Binary32.float Rng).
Local Abbreviation getMaterial := (@sphere_material Binary32.float Rng).

Lemma reflector_contract (m : Material Binary32.float Rng) albedo :
  reflector m albedo -> vall IEEE.nonneg_real albedo = true -> material_contract m.
Proof.
  intros [Hemit Hscatter] Ha. split.
  - intros u v p. rewrite Hemit. reflexivity.
  - intros r hit g a s g' Hs. now rewrite (Hscatter _ _ _ _ _ _ Hs).
Qed.

Lemma lamp_contract (m : Material Binary32.float Rng) colour :
  lamp m colour -> vall IEEE.nonneg_real colour = true -> material_contract m.
Proof.
  intros [Hemit Hscatter] Hc. split.
  - intros u v p. now rewrite Hemit.
  - intros r hit g a s g' Hs. specialize (Hscatter r hit g).
    unfold Binary32.float in Hscatter. now rewrite Hs in Hscatter.
Qed.

(** The six spheres, in the order of the calls of [addObject]. *)
Lemma createWorld_objects index obj :
  getObject (createWorld catalog) index = Some obj ->
  (exists albedo fuzz, vall IEEE.positive_real albedo = true
                       /\ getMaterial obj = make_Metal catalog albedo fuzz)
  \/ (exists albedo, vall IEEE.positive_real albedo = true
                     /\ getMaterial obj = make_Metal1 catalog albedo)
  \/ (exists ri, getMaterial obj = make_Dielectric catalog ri)
  \/ (exists albedo, vall IEEE.positive_real albedo = true
                     /\ getMaterial obj = make_Lambertian catalog albedo)
  \/ (exists colour, vall IEEE.nonneg_real colour = true
                     /\ getMaterial obj = make_DiffuseLight catalog colour).
Proof.
  unfold ObjCollection_getObject, createWorld, addObject. cbn [app].
  destruct index as [ | [ | [ | [ | [ | [ | index]]]]]]; cbn [nth_error];
    try (destruct index; discriminate); intros [= <-]; cbn [sphere_material].
  - left. eexists _, _. split; [ | reflexivity]. vm_compute. reflexivity.
  - right; left. eexists. split; [ | reflexivity]. vm_compute. reflexivity.
  - right; right; left. eexists. reflexivity.
  - right; right; right; left. eexists. split; [ | reflexivity]. vm_compute. reflexivity.
  - right; right; right; right. eexists. split; [ | reflexivity]. vm_compute. reflexivity.
  - right; right; right; right. eexists. split; [ | reflexivity]. vm_compute. reflexivity.
Qed.

Lemma positive_real_nonneg a :
  vall IEEE.positive_real a = true -> vall IEEE.nonneg_real a = true.
Proof.
  rewrite !vall_true.
  assert (forall x, IEEE.positive_real x = true -> IEEE.nonneg_real x = true)
    by (intros [ | | | [ | ] m e]; cbn; congruence).
  intuition auto.
Qed.

Lemma createWorld_contract : world_contract getObject getMaterial (createWorld catalog).
Proof.
  destruct catalog_ok as (Hl & Hm & Hm1 & Hd & Hlight).
  intros index obj Hobj.
  destruct (createWorld_objects _ Hobj)
    as [(a & f & Ha & ->) | [(a & Ha & ->) | [(ri & ->) | [(a & Ha & ->) | (c & Hc & ->)]]]].
  - eapply reflector_contract; [apply Hm | now apply positive_real_nonneg].
  - eapply reflector_contract; [apply Hm1 | now apply positive_real_nonneg].
  - eapply reflector_contract; [apply Hd | reflexivity].
  - eapply reflector_contract; [apply Hl | now apply positive_real_nonneg].
  - eapply lamp_contract; [apply Hlight | exact Hc].
Qed.

Lemma createWorld_attenuation :
  attenuation_positive getObject getMaterial (createWorld catalog).
Proof.
  destruct catalog_ok as (Hl & Hm & Hm1 & Hd & Hlight).
  intros index obj r hit g a s g' Hobj.
  destruct (createWorld_objects _ Hobj)
    as [(a' & f & Ha & ->) | [(a' & Ha & ->) | [(ri & ->) | [(a' & Ha & ->) | (c & Hc & ->)]]]];
    intros Hs.
  - now rewrite (proj2 (Hm a' f) _ _ _ _ _ _ Hs).
  - now rewrite (proj2 (Hm1 a') _ _ _ _ _ _ Hs).
  - now rewrite (proj2 (Hd ri) _ _ _ _ _ _ Hs).
  - now rewrite (proj2 (Hl a') _ _ _ _ _ _ Hs).
  - pose proof (proj2 (Hlight c) r hit g) as Hnone.
    unfold Binary32.float in Hnone. now rewrite Hs in Hnone.
Qed.

(** X14: the scene that [createWorld] builds has no black reflector: every
    albedo is positive in every channel, the spheres of glass attenuate by
    [(1, 1, 1)] and the light emits [(3, 3, 3)].  With material classes
    that behave as section 4.5 says, every component of the radiance of
    every ray in this scene is a non-negative number or plus infinity,
    never a NaN and never negative, however the collection answers the
    queries. *)
Theorem createWorld_radiance_is_a_number
    (getHit : ObjCollection Binary32.float Rng -> Ray Binary32.float
              -> Binary32.float -> Binary32.float
              -> option (nat * Hit Binary32.float)) r n g c g' :
  color getHit getObject getMaterial (createWorld catalog) r n g = Some (c, g') ->
  vall IEEE.nonneg_or_inf c = true.
Proof.
  intros Hc.
  eapply (@color_number Binary32.prec Binary32.emax);
    [exact createWorld_contract | exact createWorld_attenuation | exact Hc].
Qed.
End CreateWorldFacts.

Lemma MainScene_catalog_contract : catalog_contract MainScene.catalog.
Proof.
  assert (forall albedo fuzz,
             reflector (Metal Scenes.centre_sample albedo fuzz) albedo) as Hmetal.
  { intros albedo fuzz. split; [reflexivity | ].
    intros r hit g a s g'. unfold Metal. cbn [scatter Scenes.centre_sample].
    destruct (fltb f0 _); [now intros [= <- _ _] | discriminate]. }
  repeat split.
  - intros r hit g a s g'. cbn. now intros [= <- _ _].
  - apply Hmetal.
  - apply Hmetal.
  - intros r hit g a s g'. cbn. now intros [= <- _ _].
Qed.

(** The ray from the eye to the point looked at meets the ground, which
    sends it to the light: three times the albedo of the ground. *)
Lemma createWorld_radiance_is_a_number_witness :
  let c := mkVec3 (S754_finite false 16106127 (-27)) (S754_finite false 10066330 (-23))
                  (S754_finite false 14092862 (-25)) in
  trace MainScene.world MainScene.central_ray 0 0 = Some (c, 0)
  /\ vall IEEE.nonneg_or_inf c = true.
Proof.
  assert (trace MainScene.world MainScene.central_ray 0 0
          = Some (mkVec3 (S754_finite false 16106127 (-27))
                         (S754_finite false 10066330 (-23))
                         (S754_finite false 14092862 (-25)), 0)) as Hc
    by (vm_compute; reflexivity).
  split; [exact Hc | ].
  exact (@createWorld_radiance_is_a_number Scenes.Rng MainScene.catalog
           MainScene_catalog_contract
           (@ObjCollection_getHit Scenes.F binary32 Scenes.Rng)
           MainScene.central_ray 0 0 _ _ Hc).
Defined.


(** The tiny render with row 0 taken before row 1: the pixel [(1, 1)]
    holds other bytes than in the order of the source, and they are again
    the displayed mean of two samples of that pixel. *)
Lemma rows_loop_writes_witness :
  exists image g',
    Scenes.tiny_rows [0; 1] 0 = Some (image, g')
    /\ In 1 [0; 1]
    /\ exists gxy cs g2,
         Scenes.tiny_samples 1 1 gxy = Some (cs, g2)
         /\ length cs = Z.to_nat 2
         /\ image 1 1 = Some (displayed_pixel 2 cs).
Proof.
  destruct (Scenes.tiny_rows [0; 1] 0) as [[image g'] | ] eqn:Hr;
    [ | exfalso; revert Hr; vm_compute; discriminate].
  exists image, g'. split; [reflexivity | ].
  split; [right; left; reflexivity | ].
  exact (proj2 (@rows_loop_writes Scenes.F Binary64.double binary32 display32
                  Scenes.Rng _ _ unit
                  (@ObjCollection_getHit Scenes.F binary32 Scenes.Rng)
                  (@ObjCollection_getObject Scenes.F Scenes.Rng)
                  (@sphere_material Scenes.F Scenes.Rng)
                  Binary64.drand48 Scenes.eye_ray 2 2 2 tt [Scenes.unit_sphere]
                  [0; 1] (fun _ _ => None) 0 image g' Hr)
               1 1 (or_intror (or_introl eq_refl)) ltac:(lia)).
Defined.
